(** * Liang hyphenation ([utils/hyphenate.py]): the pattern trie, the exception
      table and [hyphenate_word], embedded and verified.

    Python strings are sequences of Unicode code points: a character is its
    code point ([N]) and a string is a list of them.  Dictionaries are finite
    maps ([gmap]).  The two statements of the module that can raise
    ([int(...)] while a pattern is compiled, and the indexed stores
    [points[i+j] = ...] and [pieces[-1] += c] while a word is hyphenated) are
    modelled in an error monad, so that "raises nothing" is a theorem and not
    an assumption.

    Two builtins of Python are tables of the Unicode database rather than
    code of the module: [str.lower] and [int] applied to a string.  The
    model takes them as parameters ([lower], [py_int]); what a theorem needs
    to know about them is stated as a hypothesis, and [lower_latin1] and
    [int_ascii] are the instances on which the examples run. *)

From Stdlib Require Import ZArith String Ascii.
From stdpp Require Import gmap list.

Local Open Scope Z_scope.

(** ** Characters and strings *)

Abbreviation char := N (only parsing).
Abbreviation str := (list N) (only parsing).

(** An ASCII literal as a Python string. *)
Definition s (lit : string) : str := map N_of_ascii (list_ascii_of_string lit).

Definition DOT : char := 46%N.     (* '.' *)
Definition HYPHEN : char := 45%N.  (* '-' *)

(** The accented letters of the pattern alphabet (precomposed code points,
    as they are written in the source file). *)
Definition a_acute : char := 225%N.
Definition e_acute : char := 233%N.
Definition i_acute : char := 237%N.
Definition o_acute : char := 243%N.
Definition u_acute : char := 250%N.
Definition u_diaeresis : char := 252%N.
Definition n_tilde : char := 241%N.

Definition in_range (lo hi c : char) : bool := ((lo <=? c) && (c <=? hi))%N.

(** [[0-9]] *)
Definition is_digit (c : char) : bool := in_range 48 57 c.

(** [[a-z]], the class the exceptions are split on (line 33). *)
Definition is_az (c : char) : bool := in_range 97 122 c.

(** [[.a-záéíóúüñ]], the class the patterns are split on (line 39). *)
Definition is_pattern_letter (c : char) : bool :=
  (c =? DOT)%N || is_az c
  || (c =? a_acute)%N || (c =? e_acute)%N || (c =? i_acute)%N
  || (c =? o_acute)%N || (c =? u_acute)%N || (c =? u_diaeresis)%N
  || (c =? n_tilde)%N.

(** The characters [str.split()] separates on: those for which
    [str.isspace] holds. *)
Definition is_space (c : char) : bool :=
  in_range 9 13 c || in_range 28 32 c || (c =? 133)%N || (c =? 160)%N
  || (c =? 5760)%N || in_range 8192 8202 c || (c =? 8232)%N || (c =? 8233)%N
  || (c =? 8239)%N || (c =? 8287)%N || (c =? 12288)%N.

Definition starts_token (x : str) : bool :=
  match x with
  | c :: _ => negb (is_space c)
  | [] => false
  end.

(** [x.split()]: the maximal runs of characters that are not white space. *)
Fixpoint split (x : str) : list str :=
  match x with
  | [] => []
  | c :: x' =>
      if is_space c then split x'
      else if starts_token x' then
        match split x' with
        | tok :: toks => (c :: tok) :: toks
        | [] => [[c]]
        end
      else [c] :: split x'
  end.

(** [re.split(cls, x)] for a class [cls] of single characters: the pieces
    between the matching characters, one more than there are matches. *)
Fixpoint re_split (cls : char → bool) (x : str) : list str :=
  match x with
  | [] => [[]]
  | c :: x' =>
      if cls c then [] :: re_split cls x'
      else match re_split cls x' with
           | seg :: segs => (c :: seg) :: segs
           | [] => [[c]]
           end
  end.

(** [re.sub(cls, '', x)] and [x.replace(c, '')]: the characters that stay. *)
Definition re_sub_empty (cls : char → bool) (x : str) : str :=
  List.filter (λ c, negb (cls c)) x.

Definition remove_char (d : char) (x : str) : str :=
  List.filter (λ c, negb (c =? d)%N) x.

(** A string put back together from the pieces [re_split] cut it into and
    the characters it cut at: [gap0 c0 gap1 c1 ... gapn]. *)
Fixpoint interleave (gaps : list str) (letters : str) : str :=
  match gaps, letters with
  | gap :: gaps', c :: letters' => gap ++ c :: interleave gaps' letters'
  | gap :: _, [] => gap
  | [], _ => []
  end.

(** [sep.join(pieces)] *)
Fixpoint join (sep : str) (pieces : list str) : str :=
  match pieces with
  | [] => []
  | [x] => x
  | x :: rest => x ++ sep ++ join sep rest
  end.

(** The value of a run of ASCII digits read in base ten. *)
Definition digit_value (c : char) : Z := Z.of_N c - 48.

Definition decimal (ds : str) : Z :=
  fold_left (λ acc c, 10 * acc + digit_value c) ds 0.

(** ** Exceptions *)

Inductive exn : Set := IndexError | ValueError.

Inductive result (A : Type) : Type :=
  | Ok (a : A)
  | Raise (e : exn).
Arguments Ok {A} a.
Arguments Raise {A} e.

#[global] Instance result_ret : MRet result := @Ok.
#[global] Instance result_bind : MBind result := λ A B f r,
  match r with
  | Ok a => f a
  | Raise e => Raise e
  end.

(** A loop whose body may raise: [for x in xs: acc = body(acc, x)]. *)
Fixpoint for_each {A B} (body : A → B → result A) (xs : list B) (acc : A)
  : result A :=
  match xs with
  | [] => Ok acc
  | x :: xs' => acc' ← body acc x; for_each body xs' acc'
  end.

(** [[f(x) for x in xs]] *)
Fixpoint comprehension {A B} (f : A → result B) (xs : list A) : result (list B) :=
  match xs with
  | [] => Ok []
  | x :: xs' => y ← f x; ys ← comprehension f xs'; Ok (y :: ys)
  end.

(** ** The pattern trie

    A node of [self.tree] is a dict whose character keys lead to child
    dicts and whose key [None], when present, holds the list of points of
    the pattern that ends there.  The two kinds of key never mix, so a
    node is the pair of the optional [None] entry and the map of children. *)

#[warnings="-register-all"]
Inductive trie : Type :=
  Node (points_here : option (list Z)) (children : gmap N trie).

Definition empty_trie : trie := Node None ∅.

Definition payload (t : trie) : option (list Z) :=
  match t with Node p _ => p end.

Definition children (t : trie) : gmap N trie :=
  match t with Node _ m => m end.

(** Lines 44-49: walk down [chars], creating the missing dicts, and store
    [points] under [None] in the last one. *)
Fixpoint insert_path (chars : str) (points : list Z) (t : trie) : trie :=
  match chars with
  | [] => Node (Some points) (children t)
  | c :: chars' =>
      Node (payload t)
           (<[c := insert_path chars' points (default empty_trie (children t !! c))]>
              (children t))
  end.

(** The node reached from [t] along [path], if every step has a child. *)
Fixpoint descend (t : trie) (path : str) : option trie :=
  match path with
  | [] => Some t
  | c :: path' =>
      match children t !! c with
      | Some t' => descend t' path'
      | None => None
      end
  end.

(** ** The scan (lines 61-72) *)

(** [points[k] = max(points[k], v)]; the read raises when [k] is out of
    range. *)
Definition store_max (points : list Z) (k : nat) (v : Z) : result (list Z) :=
  match points !! k with
  | Some old => Ok (<[k := Z.max old v]> points)
  | None => Raise IndexError
  end.

(** [for j in range(len(p)): points[i+j] = max(points[i+j], p[j])], entered
    at [j] with [p[j:]] still to do. *)
Fixpoint merge_from (i j : nat) (p : list Z) (points : list Z)
  : result (list Z) :=
  match p with
  | [] => Ok points
  | v :: p' => points' ← store_max points (i + j) v; merge_from i (S j) p' points'
  end.

(** [for c in work[i:]: ...], entered at node [t] with [rest] still to
    read; a missing child is the [break]. *)
Fixpoint walk (t : trie) (rest : str) (i : nat) (points : list Z)
  : result (list Z) :=
  match rest with
  | [] => Ok points
  | c :: rest' =>
      match children t !! c with
      | Some t' =>
          points' ← match payload t' with
                    | Some p => merge_from i 0 p points
                    | None => Ok points
                    end;
          walk t' rest' i points'
      | None => Ok points
      end
  end.

(** [points = [0] * (len(work)+1)] and the loop over every start offset. *)
Definition scan (tree : trie) (work : str) : result (list Z) :=
  for_each (λ points i, walk tree (drop i work) i points)
           (seq 0 (length work))
           (replicate (length work + 1) 0).

(** ** The pieces (lines 75-80) *)

(** [pieces[-1] += c] *)
Definition append_to_last (c : char) (pieces : list str) : result (list str) :=
  match reverse pieces with
  | [] => Raise IndexError
  | x :: before => Ok (reverse before ++ [x ++ [c]])
  end.

(** Truth value of an integer. *)
Definition truthy (z : Z) : bool := negb (z =? 0).

(** The body of the loop of lines 76-79. *)
Abbreviation pieces_body :=
  (λ (pieces : list (list N)) '((c, p) : N * Z),
     pieces' ← append_to_last c pieces;
     Ok (if truthy (p mod 2) then pieces' ++ [[]] else pieces')).

Definition build_pieces (word : str) (points : list Z) : result (list str) :=
  for_each pieces_body (zip word points) [[]].

(** ** The Hyphenator *)

Record Hyphenator : Type := {
  tree : trie;
  exceptions : gmap (list N) (list Z);
}.

(** Line 33: the key and the point array stored for one exception token. *)
Definition exception_key (ex : str) : str := remove_char HYPHEN ex.

Definition exception_points (ex : str) : list Z :=
  0 :: map (λ h : str, if decide (h = [HYPHEN]) then 1 else 0) (re_split is_az ex).

Definition add_exception (exc : gmap (list N) (list Z)) (ex : str)
  : gmap (list N) (list Z) :=
  <[exception_key ex := exception_points ex]> exc.

(** An exception token written with lower-case ASCII letters and hyphens
    only. *)
Definition plain_exception (ex : str) : Prop :=
  Forall (λ c, is_az c || (c =? HYPHEN)%N = true) ex.

(** A pattern token written with letters of the pattern alphabet and ASCII
    digits only. *)
Definition well_formed_pattern (pattern : str) : Prop :=
  Forall (λ c, is_pattern_letter c || is_digit c = true) pattern.

Section Builtins.

(** [str.lower] *)
Variable lower : str → str.

(** [int] on a string; [None] is its [ValueError]. *)
Variable py_int : str → option Z.

(** [int(d or 0)] *)
Definition int_or_0 (d : str) : result Z :=
  match d with
  | [] => Ok 0
  | _ => match py_int d with
         | Some z => Ok z
         | None => Raise ValueError
         end
  end.

(** Lines 38-39. *)
Definition pattern_chars (pattern : str) : str := re_sub_empty is_digit pattern.

Definition pattern_points (pattern : str) : result (list Z) :=
  comprehension int_or_0 (re_split is_pattern_letter pattern).

Definition _insert_pattern (t : trie) (pattern : str) : result trie :=
  let chars := pattern_chars pattern in
  points ← pattern_points pattern;
  Ok (insert_path chars points t).

Definition __init__ (patterns exceptions : str) : result Hyphenator :=
  t ← for_each _insert_pattern (split patterns) empty_trie;
  Ok {| tree := t;
        exceptions := fold_left add_exception (split exceptions) ∅ |}.

(** Lines 56-72: the value of [points] when the pieces are built. *)
Definition word_points (self : Hyphenator) (word : str) : result (list Z) :=
  match exceptions self !! lower word with
  | Some pts => Ok pts
  | None =>
      let work := [DOT] ++ lower word ++ [DOT] in
      scan (tree self) work
  end.

Definition hyphenate_word (self : Hyphenator) (word : str) : result (list str) :=
  points ← word_points self word;
  build_pieces word (drop 2 points).

Definition hyphenate_word_as_string (self : Hyphenator) (word : str)
  : result str :=
  pieces ← hyphenate_word self word;
  Ok (join [HYPHEN] pieces).

(** What the theorems about patterns of the grammar need of [int]: it
    reads a run of ASCII digits in base ten (the limit that interpreters
    from 3.11 on put on the number of digits is not modelled). *)
Definition int_reads_digits : Prop :=
  ∀ ds, ds ≠ [] → Forall (λ c, is_digit c = true) ds →
        py_int ds = Some (decimal ds).

(** What the theorems about whole words need of [str.lower]: a character
    lower-cases to one character or more, never to none. *)
Definition lower_never_shortens : Prop :=
  ∀ w, (length w ≤ length (lower w))%nat.

End Builtins.

(** ** Instances of the builtins for the examples *)

(** [str.lower] on Latin-1 text: [A-Z] and the upper-case letters of
    U+00C0..U+00DE (the multiplication sign apart) move up by 32. *)
Definition lower_char (c : char) : char :=
  if in_range 65 90 c || (in_range 192 222 c && negb (c =? 215)%N)
  then (c + 32)%N else c.

Definition lower_latin1 (w : str) : str := map lower_char w.

(** [int] on an ASCII string without blanks: an optional sign, then digits,
    single underscores allowed between two digits. *)
Fixpoint digits_and_underscores (prev_digit : bool) (x : str) : option str :=
  match x with
  | [] => if prev_digit then Some [] else None
  | c :: x' =>
      if is_digit c then cons c <$> digits_and_underscores true x'
      else if (c =? 95)%N && prev_digit then digits_and_underscores false x'
      else None
  end.

Definition int_ascii (x : str) : option Z :=
  match x with
  | [] => None
  | c :: x' =>
      if (c =? 45)%N then (λ ds, - decimal ds) <$> digits_and_underscores false x'
      else if (c =? 43)%N then decimal <$> digits_and_underscores false x'
      else decimal <$> digits_and_underscores false x
  end.


(** ** What the scan is meant to compute

    The statement of the aggregation rule, written from the trie alone and
    without the loop: which point lists are found from a start offset, and
    which weights they give to a slot. *)

(** The point list stored at the end of [path], if the path exists and a
    pattern ends there. *)
Definition payload_at (t : trie) (path : str) : option (list Z) :=
  descend t path ≫= payload.

(** The point lists of the patterns that spell a non-empty prefix of
    [rest] below [t], shortest prefix first. *)
Definition visited (t : trie) (rest : str) : list (list Z) :=
  omap (λ n, payload_at t (take n rest)) (seq 1 (length rest)).

(** Every match in [work]: the start offset and the point list found. *)
Definition matches (tree : trie) (work : str) : list (nat * list Z) :=
  i ← seq 0 (length work); pair i <$> visited tree (drop i work).

(** The weight that a point list found at offset [m.1] gives to slot [k]. *)
Definition weight_at (k : nat) (m : nat * list Z) : option Z :=
  if decide (m.1 ≤ k)%nat then m.2 !! (k - m.1)%nat else None.

Definition slot_weights (ms : list (nat * list Z)) (k : nat) : list Z :=
  omap (weight_at k) ms.

(** The greatest of the weights, starting from the 0 the slots are
    initialised with. *)
Definition max0 (ws : list Z) : Z := foldr Z.max 0 ws.

(** [x] is the maximum of [ws], or the default 0 when there is none. *)
Definition maximum_or_0 (x : Z) (ws : list Z) : Prop :=
  match ws with
  | [] => x = 0
  | _ => x ∈ ws ∧ Forall (λ w, w ≤ x) ws
  end.

(** The invariant of the trie that keeps the stores of the scan in range:
    a point list never has more than one entry more than the path that
    leads to it has characters. *)
Definition bounded (t : trie) : Prop :=
  ∀ path p, payload_at t path = Some p → (length p ≤ length path + 1)%nat.

(** ** Hyphenators for the examples *)

(** The Hyphenator that [__init__] builds with the builtins of the
    examples ([Raise] falls back on the empty one). *)
Definition built (patterns exceptions : str) : Hyphenator :=
  match __init__ int_ascii patterns exceptions with
  | Ok self => self
  | Raise _ => {| tree := empty_trie; exceptions := ∅ |}
  end.

Definition demo_patterns : str :=
  s "hy3ph he2n hena4 hen5at 1na n2at 1tio 2io a1b 2bc a1s".

Definition demo_exceptions : str := s "as-so-ciate".

Definition demo : Hyphenator := built demo_patterns demo_exceptions.

(** ** Vocabulary of the further properties *)

(** [x.replace(a, b)] for single characters [a] and [b]. *)
Definition replace_char (a b : char) (x : str) : str :=
  map (λ c, if (c =? a)%N then b else c) x.

(** Line 88, after the header is removed: the new lines of the pattern
    file become blanks. *)
Definition NEWLINE : char := 10%N.
Definition SPACE : char := 32%N.

Definition flatten_lines (text : str) : str := replace_char NEWLINE SPACE text.

(** A hyphenated spelling: letters a-z, and hyphens that each come directly
    after a letter. *)
Fixpoint hyphenated_spelling (after_letter : bool) (ex : str) : bool :=
  match ex with
  | [] => true
  | c :: ex' =>
      if is_az c then hyphenated_spelling true ex'
      else (c =? HYPHEN)%N && after_letter && hyphenated_spelling false ex'
  end.

(** The letters [l] written with the gap that follows each of them:
    [c0 gap0 c1 gap1 ...]. *)
Fixpoint weave (letters : str) (gaps : list str) : str :=
  match letters, gaps with
  | c :: letters', gap :: gaps' => c :: gap ++ weave letters' gaps'
  | _, _ => []
  end.

(** The slots of a point list on which a piece is closed. *)
Definition odd_slots (slots : list Z) : list Z :=
  List.filter (λ p, truthy (p mod 2)) slots.

(** ** Auxiliary definitions of the proofs *)

(** One store of the scan, seen from a slot: the old value, or the greater
    of it and the weight stored. *)
Definition bump (z : Z) (o : option Z) : Z :=
  match o with Some v => Z.max z v | None => z end.

(** Unfolds the character classes into comparisons of code points. *)
Ltac char_class :=
  unfold is_pattern_letter, is_digit, is_az, in_range, DOT, HYPHEN, a_acute,
    e_acute, i_acute, o_acute, u_acute, u_diaeresis, n_tilde in *;
  repeat match goal with
    | H : _ || _ = true |- _ => apply orb_true_iff in H; destruct H
    | H : _ && _ = true |- _ => apply andb_true_iff in H; destruct H
    | H : (_ =? _)%N = true |- _ => apply N.eqb_eq in H
    | H : (_ <=? _)%N = true |- _ => apply N.leb_le in H
    | H : negb _ = true |- _ => apply negb_true_iff in H
    | H : (_ =? _)%N = false |- _ => apply N.eqb_neq in H
    | H : (_ <=? _)%N = false |- _ => apply N.leb_gt in H
    | H : _ && _ = false |- _ => apply andb_false_iff in H; destruct H
    | H : _ || _ = false |- _ => apply orb_false_iff in H; destruct H
    end.

(** * Proofs *)

Example split_ex : split (s "  a1b  2bc
 x ") = [s "a1b"; s "2bc"; s "x"].
Proof. reflexivity. Qed.

(** ** The result monad *)

Lemma bind_Ok {A B} (r : result A) (f : A → result B) (b : B) :
  r ≫= f = Ok b ↔ ∃ a, r = Ok a ∧ f a = Ok b.
Proof.
  destruct r as [a|e]; simpl.
  - split; [eauto | intros (a' & [= <-] & ?); done].
  - split; [done | intros (a' & ? & ?); done].
Qed.

Lemma for_each_app {A B} (body : A → B → result A) xs ys acc :
  for_each body (xs ++ ys) acc = for_each body xs acc ≫= for_each body ys.
Proof.
  revert acc. induction xs as [|x xs IH]; intros acc; simpl; [done|].
  destruct (body acc x) as [acc'|e]; simpl; [apply IH | done].
Qed.

Lemma comprehension_length {A B} (f : A → result B) xs ys :
  comprehension f xs = Ok ys → length ys = length xs.
Proof.
  revert ys. induction xs as [|x xs IH]; intros ys; simpl.
  - by intros [= <-].
  - destruct (f x) as [y|]; simpl; [|done].
    destruct (comprehension f xs) as [ys'|]; simpl; [|done].
    intros [= <-]. simpl. f_equal. by apply IH.
Qed.

Lemma comprehension_Ok {A B} (f : A → result B) (g : A → B) xs :
  Forall (λ x, f x = Ok (g x)) xs → comprehension f xs = Ok (map g xs).
Proof.
  induction 1 as [|x xs Hx _ IH]; simpl; [done|].
  by rewrite Hx, IH.
Qed.

(** ** Building the pieces *)

Lemma append_to_last_snoc c done cur :
  append_to_last c (done ++ [cur]) = Ok (done ++ [cur ++ [c]]).
Proof.
  unfold append_to_last. rewrite reverse_snoc. by rewrite reverse_involutive.
Qed.


(** The loop never raises, keeps a last piece to append to, and only ever
    adds the characters it is given, in order. *)
Lemma pieces_loop zs done cur :
  ∃ done' cur',
    for_each pieces_body zs (done ++ [cur]) = Ok (done' ++ [cur'])
    ∧ concat (done' ++ [cur']) = concat (done ++ [cur]) ++ zs.*1.
Proof.
  revert done cur. induction zs as [|[c p] zs IH]; intros done cur.
  - exists done, cur. simpl. by rewrite app_nil_r.
  - cbn [for_each]. rewrite append_to_last_snoc. cbn [mbind result_bind].
    destruct (truthy (p mod 2)).
    + destruct (IH (done ++ [cur ++ [c]]) []) as (d' & c' & -> & Hcat).
      exists d', c'. split; [done|]. rewrite Hcat.
      rewrite !concat_app. simpl. rewrite !app_nil_r.
      by rewrite <- !app_assoc.
    + destruct (IH done (cur ++ [c])) as (d' & c' & -> & Hcat).
      exists d', c'. split; [done|]. rewrite Hcat.
      rewrite !concat_app. simpl. rewrite !app_nil_r.
      by rewrite <- !app_assoc.
Qed.

(** Without an odd point the last piece just grows. *)
Lemma pieces_loop_even zs done cur :
  Forall (λ p, truthy (p mod 2) = false) zs.*2 →
  for_each pieces_body zs (done ++ [cur]) = Ok (done ++ [cur ++ zs.*1]).
Proof.
  revert cur. induction zs as [|[c p] zs IH]; intros cur Hev.
  - simpl. by rewrite app_nil_r.
  - cbn [for_each]. rewrite append_to_last_snoc. cbn [mbind result_bind].
    simpl in Hev. apply Forall_cons in Hev as [-> Hev].
    rewrite IH by done. simpl. by rewrite <- app_assoc.
Qed.

Lemma build_pieces_spec word points :
  ∃ pieces,
    build_pieces word points = Ok pieces
    ∧ pieces ≠ []
    ∧ concat pieces = take (length points) word.
Proof.
  unfold build_pieces.
  destruct (pieces_loop (zip word points) [] []) as (d & c & Hrun & Hcat).
  simpl in Hrun, Hcat. exists (d ++ [c]). split; [done|]. split.
  - by destruct d.
  - rewrite Hcat. clear. revert points.
    induction word as [|a word IH]; intros [|p points]; simpl; f_equal; auto.
Qed.

Lemma build_pieces_whole word points :
  (length word ≤ length points)%nat →
  ∃ pieces, build_pieces word points = Ok pieces ∧ concat pieces = word.
Proof.
  intros Hlen. destruct (build_pieces_spec word points) as (ps & Hps & _ & Hcat).
  exists ps. split; [done|]. rewrite Hcat. by apply take_ge.
Qed.

Lemma build_pieces_single word points :
  (length word ≤ length points)%nat →
  Forall (λ p, truthy (p mod 2) = false) (take (length word) points) →
  build_pieces word points = Ok [word].
Proof.
  intros Hlen Hev. unfold build_pieces.
  pose proof (pieces_loop_even (zip word points) [] []) as Hrun.
  simpl in Hrun. rewrite Hrun.
  - by rewrite fst_zip.
  - rewrite <- (zip_with_take_r _ word points).
    rewrite snd_zip; [done|]. rewrite length_take. lia.
Qed.

(** ** The trie *)

Lemma descend_app t p1 p2 :
  descend t (p1 ++ p2) = descend t p1 ≫= λ t', descend t' p2.
Proof.
  revert t. induction p1 as [|c p1 IH]; intros t; simpl; [done|].
  destruct (children t !! c); simpl; [apply IH | done].
Qed.

Lemma payload_at_cons t c path :
  payload_at t (c :: path) = children t !! c ≫= λ t', payload_at t' path.
Proof. unfold payload_at. simpl. by destruct (children t !! c). Qed.

Lemma payload_at_empty path : payload_at empty_trie path = None.
Proof. by destruct path. Qed.

Lemma omap_none {A B} (l : list A) : omap (λ _ : A, @None B) l = [].
Proof. by induction l. Qed.

Lemma omap_seq_shift {B} (F G : nat → option B) a n :
  (∀ k, F (S k) = G k) → omap F (seq (S a) n) = omap G (seq a n).
Proof.
  intros HFG. revert a. induction n as [|n IH]; intros a; [done|].
  simpl. by rewrite HFG, IH.
Qed.

Lemma visited_cons t c rest :
  visited t (c :: rest) =
    match children t !! c with
    | Some t' => option_list (payload t') ++ visited t' rest
    | None => []
    end.
Proof.
  unfold visited. simpl length. cbn [seq]. simpl omap. simpl take.
  rewrite (omap_seq_shift _
             (λ n, children t !! c ≫= λ t', payload_at t' (take n rest)))
    by (intros k; apply payload_at_cons).
  rewrite payload_at_cons.
  destruct (children t !! c) as [t'|]; simpl.
  - unfold payload_at at 1. simpl. by destruct (payload t').
  - apply omap_none.
Qed.

Lemma visited_empty rest : visited empty_trie rest = [].
Proof.
  unfold visited. generalize (seq 1 (length rest)). intros l.
  induction l as [|n l IH]; [done|]. simpl. by rewrite payload_at_empty.
Qed.

Lemma matches_empty work : matches empty_trie work = [].
Proof.
  unfold matches. generalize (seq 0 (length work)). intros l.
  induction l as [|i l IH]; [done|]. simpl. by rewrite visited_empty.
Qed.

(** ** The scan *)


Lemma foldr_max_bump z o ws :
  foldr Z.max (bump z o) ws = foldr Z.max z (option_list o ++ ws).
Proof.
  destruct o as [v|]; simpl; [|done].
  induction ws as [|w ws IH]; simpl; [lia|]. rewrite IH. simpl. lia.
Qed.

Lemma foldr_max_swap z ws1 ws2 :
  foldr Z.max (foldr Z.max z ws1) ws2 = foldr Z.max z (ws1 ++ ws2).
Proof.
  induction ws1 as [|w ws1 IH]; simpl; [done|].
  rewrite <- IH. rewrite Z.max_comm.
  exact (foldr_max_bump _ (Some w) ws2).
Qed.

Lemma store_max_spec points k v :
  (k < length points)%nat →
  ∃ points', store_max points k v = Ok points'
    ∧ length points' = length points
    ∧ ∀ k', points' !! k' =
        (λ z, if decide (k' = k) then Z.max z v else z) <$> points !! k'.
Proof.
  intros Hk. unfold store_max.
  destruct (lookup_lt_is_Some_2 points k Hk) as [old Hold]. rewrite Hold.
  eexists; split; [done|]. split; [by rewrite length_insert|].
  intros k'. destruct (decide (k' = k)) as [->|Hne].
  - rewrite list_lookup_insert_eq by done. by rewrite Hold.
  - rewrite list_lookup_insert_ne by done. by destruct (points !! k').
Qed.

Lemma merge_from_spec i j p points :
  (i + j + length p ≤ length points)%nat →
  ∃ points', merge_from i j p points = Ok points'
    ∧ length points' = length points
    ∧ ∀ k, points' !! k =
        (λ z, bump z (if decide (i + j ≤ k)%nat then p !! (k - (i + j))%nat else None))
          <$> points !! k.
Proof.
  revert j points. induction p as [|v p IH]; intros j points Hlen.
  - exists points. split; [done|]. split; [done|]. intros k.
    destruct (points !! k); simpl; [|done]. by case_decide.
  - simpl in Hlen. cbn [merge_from].
    destruct (store_max_spec points (i + j) v) as (pts1 & -> & Hl1 & Hk1); [lia|].
    cbn [mbind result_bind].
    destruct (IH (S j) pts1) as (pts2 & -> & Hl2 & Hk2); [lia|].
    exists pts2. split; [done|]. split; [lia|]. intros k.
    rewrite Hk2, Hk1. destruct (points !! k) as [z|]; simpl; [|done]. f_equal.
    destruct (decide (k = i + j)%nat) as [->|Hne].
    + rewrite decide_False by lia. rewrite decide_True by lia.
      replace (i + j - (i + j))%nat with 0%nat by lia. done.
    + destruct (decide (i + j ≤ k)%nat).
      * rewrite decide_True by lia.
        replace (k - (i + j))%nat with (S (k - (i + S j)))%nat by lia. done.
      * rewrite decide_False by lia. done.
Qed.

Lemma walk_spec tree pre t rest i points :
  bounded tree →
  descend tree pre = Some t →
  (i + length pre + length rest + 1 ≤ length points)%nat →
  ∃ points', walk t rest i points = Ok points'
    ∧ length points' = length points
    ∧ ∀ k, points' !! k =
        (λ z, foldr Z.max z (slot_weights (pair i <$> visited t rest) k))
          <$> points !! k.
Proof.
  intros Hb. revert pre t points.
  induction rest as [|c rest IH]; intros pre t points Hpre Hlen.
  - exists points. split; [done|]. split; [done|]. intros k.
    by destruct (points !! k).
  - cbn [walk]. rewrite visited_cons.
    destruct (children t !! c) as [t'|] eqn:Hc.
    2:{ exists points. split; [done|]. split; [done|]. intros k.
        by destruct (points !! k). }
    assert (descend tree (pre ++ [c]) = Some t') as Hpre'.
    { rewrite descend_app, Hpre. simpl. by rewrite Hc. }
    simpl in Hlen.
    assert (∃ pts1, match payload t' with
                    | Some p => merge_from i 0 p points
                    | None => Ok points
                    end = Ok pts1
              ∧ length pts1 = length points
              ∧ ∀ k, pts1 !! k =
                  (λ z, foldr Z.max z (slot_weights (pair i <$> option_list (payload t')) k))
                    <$> points !! k) as (pts1 & -> & Hl1 & Hk1).
    { destruct (payload t') as [p|] eqn:Hp.
      - assert (length p ≤ length (pre ++ [c]) + 1)%nat as Hp'.
        { apply Hb. unfold payload_at. by rewrite Hpre'. }
        rewrite length_app in Hp'. simpl in Hp'.
        destruct (merge_from_spec i 0 p points) as (pts1 & -> & Hl1 & Hk1); [lia|].
        exists pts1. split; [done|]. split; [done|]. intros k. rewrite Hk1.
        destruct (points !! k) as [z|]; simpl; [|done]. f_equal.
        unfold slot_weights, weight_at. simpl. rewrite Nat.add_0_r.
        case_decide; [|done]. destruct (p !! (k - i)%nat); simpl; lia.
      - exists points. split; [done|]. split; [done|]. intros k.
        by destruct (points !! k). }
    cbn [mbind result_bind].
    destruct (IH (pre ++ [c]) t' pts1 Hpre') as (pts2 & -> & Hl2 & Hk2).
    { rewrite length_app. simpl. lia. }
    exists pts2. split; [done|]. split; [lia|]. intros k.
    rewrite Hk2, Hk1. destruct (points !! k) as [z|]; simpl; [|done]. f_equal.
    rewrite foldr_max_swap. unfold slot_weights.
    by rewrite fmap_app, omap_app.
Qed.

Lemma scan_loop tree work a m points :
  bounded tree →
  (a + m = length work)%nat →
  length points = (length work + 1)%nat →
  ∃ points',
    for_each (λ pts i, walk tree (drop i work) i pts) (seq a m) points = Ok points'
    ∧ length points' = length points
    ∧ ∀ k, points' !! k =
        (λ z, foldr Z.max z
                (slot_weights (i ← seq a m; pair i <$> visited tree (drop i work)) k))
          <$> points !! k.
Proof.
  intros Hb. revert a points. induction m as [|m IH]; intros a points Ham Hlen.
  - exists points. split; [done|]. split; [done|]. intros k.
    by destruct (points !! k).
  - cbn [seq for_each].
    destruct (walk_spec tree [] tree (drop a work) a points Hb eq_refl)
      as (pts1 & -> & Hl1 & Hk1).
    { rewrite length_drop. simpl. lia. }
    cbn [mbind result_bind].
    destruct (IH (S a) pts1) as (pts2 & -> & Hl2 & Hk2); [lia..|].
    exists pts2. split; [done|]. split; [lia|]. intros k.
    rewrite Hk2, Hk1. destruct (points !! k) as [z|]; simpl; [|done]. f_equal.
    rewrite foldr_max_swap. unfold slot_weights. by rewrite omap_app.
Qed.

Lemma scan_spec tree work :
  bounded tree →
  ∃ points, scan tree work = Ok points
    ∧ length points = (length work + 1)%nat
    ∧ ∀ k, (k < length points)%nat →
        points !! k = Some (max0 (slot_weights (matches tree work) k)).
Proof.
  intros Hb. unfold scan.
  destruct (scan_loop tree work 0 (length work)
              (replicate (length work + 1) 0) Hb eq_refl)
    as (points & Hrun & Hl & Hk).
  { by rewrite length_replicate. }
  rewrite length_replicate in Hl.
  exists points. split; [done|]. split; [done|]. intros k Hlt.
  rewrite Hk, lookup_replicate_2 by lia. done.
Qed.

(** ** Inserting patterns *)

Lemma payload_at_insert chars points t path :
  payload_at (insert_path chars points t) path =
    if decide (path = chars) then Some points else payload_at t path.
Proof.
  revert t path. induction chars as [|c chars IH]; intros t path.
  - destruct path as [|c' path]; [done|].
    rewrite decide_False by done. by rewrite !payload_at_cons.
  - destruct path as [|c' path].
    { rewrite decide_False by done. done. }
    rewrite !payload_at_cons. cbn [insert_path children].
    destruct (decide (c = c')) as [<-|Hne].
    + rewrite lookup_insert_eq. simpl. rewrite IH.
      destruct (decide (path = chars)) as [->|Hp].
      * by rewrite decide_True.
      * rewrite decide_False by congruence.
        destruct (children t !! c); simpl; [done | apply payload_at_empty].
    + rewrite lookup_insert_ne by done.
      rewrite decide_False by congruence. done.
Qed.

Lemma bounded_empty : bounded empty_trie.
Proof. intros path p. by rewrite payload_at_empty. Qed.

Lemma bounded_insert chars points t :
  bounded t → (length points ≤ length chars + 1)%nat →
  bounded (insert_path chars points t).
Proof.
  intros Hb Hlen path p. rewrite payload_at_insert.
  case_decide as Hp; [|apply Hb]. intros [= <-]. by subst.
Qed.

(** Inserting two patterns with different letters commutes: the trie keeps
    no trace of the order. *)
Lemma insert_path_comm cs1 p1 cs2 p2 t :
  cs1 ≠ cs2 →
  insert_path cs1 p1 (insert_path cs2 p2 t)
  = insert_path cs2 p2 (insert_path cs1 p1 t).
Proof.
  revert cs2 t. induction cs1 as [|c1 cs1 IH]; intros [|c2 cs2] t Hne;
    try done; cbn [insert_path children payload].
  destruct (decide (c1 = c2)) as [<-|Hc].
  - rewrite !lookup_insert_eq, !insert_insert_eq. simpl.
    rewrite IH by congruence. done.
  - rewrite !lookup_insert_ne by done. f_equal. by apply insert_insert_ne.
Qed.

(** ** Regular expressions on single characters *)

Lemma re_split_length cls x :
  length (re_split cls x) = S (length (List.filter cls x)).
Proof.
  induction x as [|c x IH]; simpl; [done|].
  destruct (cls c); simpl; [by rewrite IH|].
  destruct (re_split cls x); simpl in *; done.
Qed.

Lemma filter_length_le (P Q : N → bool) x :
  (∀ c, P c = true → Q c = true) →
  (length (List.filter P x) ≤ length (List.filter Q x))%nat.
Proof.
  intros HPQ. induction x as [|c x IH]; simpl; [done|].
  destruct (P c) eqn:HP.
  - rewrite (HPQ c HP). simpl. lia.
  - destruct (Q c); simpl; lia.
Qed.

Lemma filter_length_eq (P Q : N → bool) x :
  Forall (λ c, P c = Q c) x →
  length (List.filter P x) = length (List.filter Q x).
Proof.
  induction 1 as [|c x Hc _ IH]; simpl; [done|].
  rewrite Hc. destruct (Q c); simpl; lia.
Qed.


Lemma pattern_letter_not_digit c :
  is_pattern_letter c = true → negb (is_digit c) = true.
Proof.
  intros H. apply negb_true_iff. destruct (is_digit c) eqn:Hd; [|done].
  char_class; lia.
Qed.

Lemma payload_inv_insert (P : list N → list Z → Prop) chars points t :
  (∀ path p, payload_at t path = Some p → P path p) →
  P chars points →
  ∀ path p, payload_at (insert_path chars points t) path = Some p → P path p.
Proof.
  intros Ht HP path p. rewrite payload_at_insert.
  case_decide as Hp; [|apply Ht]. intros [= <-]. by subst.
Qed.

Lemma re_split_interleave cls x :
  interleave (re_split cls x) (List.filter cls x) = x.
Proof.
  induction x as [|c x IH]; simpl; [done|].
  destruct (cls c) eqn:Hc; simpl; [by rewrite IH|].
  pose proof (re_split_length cls x) as Hlen.
  destruct (re_split cls x) as [|gap gaps]; [done|].
  destruct (List.filter cls x); simpl in *; by rewrite IH.
Qed.

Lemma re_split_gaps (P : N → Prop) cls x :
  Forall P x → Forall (Forall (λ c, cls c = false ∧ P c)) (re_split cls x).
Proof.
  induction 1 as [|c x Hc _ IH]; simpl; [by repeat constructor|].
  destruct (cls c) eqn:Hcls; [by constructor|].
  destruct (re_split cls x) as [|gap gaps]; [by repeat constructor|].
  apply Forall_cons in IH as [Hgap Hgaps]. by repeat constructor.
Qed.

Lemma decimal_snoc ds d : decimal (ds ++ [d]) = 10 * decimal ds + digit_value d.
Proof. unfold decimal. by rewrite fold_left_app. Qed.

Lemma decimal_nonneg ds : Forall (λ c, is_digit c = true) ds → 0 ≤ decimal ds.
Proof.
  induction ds as [|d ds IH] using rev_ind; intros Hds; [done|].
  apply Forall_app in Hds as [Hds [Hd _]%Forall_cons].
  rewrite decimal_snoc. specialize (IH Hds).
  unfold digit_value. char_class. lia.
Qed.

(** ** The maximum *)

Lemma max0_nonneg ws : 0 ≤ max0 ws.
Proof. induction ws as [|w ws IH]; simpl; lia. Qed.

Lemma max0_upper ws : Forall (λ w, w ≤ max0 ws) ws.
Proof.
  induction ws as [|w ws IH]; simpl; constructor; [lia|].
  eapply Forall_impl; [done|]. simpl. intros; lia.
Qed.

Lemma max0_elem ws : ws ≠ [] → Forall (λ w, 0 ≤ w) ws → max0 ws ∈ ws.
Proof.
  induction ws as [|w ws IH]; [done|]. intros _ [Hw Hws]%Forall_cons. simpl.
  destruct ws as [|w' ws].
  - simpl. rewrite Z.max_l by done. left.
  - destruct (Z.max_spec w (max0 (w' :: ws))) as [[_ ->]|[_ ->]].
    + right. by apply IH.
    + left.
Qed.

Lemma max0_maximum ws : Forall (λ w, 0 ≤ w) ws → maximum_or_0 (max0 ws) ws.
Proof.
  intros Hws. destruct ws as [|w ws]; [done|]. split.
  - by apply max0_elem.
  - apply max0_upper.
Qed.

Lemma max0_one_two ws : ws ≡ₚ [1; 2] → max0 ws = 2.
Proof.
  intros Hp.
  assert (max0 ws ∈ ws) as Hin.
  { apply max0_elem.
    - intros ->. by apply Permutation_nil_l in Hp.
    - rewrite Hp. repeat constructor; lia. }
  assert (2 ≤ max0 ws) as Hge.
  { pose proof (max0_upper ws) as Hup. rewrite Forall_forall in Hup.
    apply Hup. rewrite Hp. set_solver. }
  generalize dependent (max0 ws). intros m Hin Hge.
  rewrite Hp in Hin. apply elem_of_cons in Hin as [->|Hin]; [lia|].
  by apply list_elem_of_singleton in Hin.
Qed.

Lemma slot_weights_origin t work k w :
  w ∈ slot_weights (matches t work) k →
  ∃ path p, payload_at t path = Some p ∧ w ∈ p.
Proof.
  unfold slot_weights, matches.
  intros ([i p] & Hm & Hw)%list_elem_of_omap.
  apply list_elem_of_bind in Hm as (i' & Hm & _).
  apply list_elem_of_fmap in Hm as (p' & [= <- <-] & Hv).
  unfold visited in Hv. apply list_elem_of_omap in Hv as (n & _ & Hp).
  exists (take n (drop i work)), p. split; [done|].
  unfold weight_at in Hw. simpl in Hw. case_decide; [|done].
  by eapply list_elem_of_lookup_2.
Qed.

Section Proofs.

Variable lower : str → str.
Variable py_int : str → option Z.

Lemma pattern_points_length pattern points :
  pattern_points py_int pattern = Ok points →
  (length points ≤ length (pattern_chars pattern) + 1)%nat.
Proof.
  intros Hp. apply comprehension_length in Hp.
  rewrite Hp, re_split_length. unfold pattern_chars, re_sub_empty.
  pose proof (filter_length_le is_pattern_letter (λ c, negb (is_digit c))
                pattern pattern_letter_not_digit).
  lia.
Qed.

Lemma pattern_points_raises pattern e :
  pattern_points py_int pattern = Raise e → e = ValueError.
Proof.
  unfold pattern_points. generalize (re_split is_pattern_letter pattern).
  intros segs. induction segs as [|seg segs IH]; simpl; [done|].
  destruct (int_or_0 py_int seg) as [z|e'] eqn:Hseg; simpl.
  - destruct (comprehension _ segs); simpl; [done | auto].
  - intros [= <-]. unfold int_or_0 in Hseg.
    destruct seg; [done|]. by destruct (py_int _); simplify_eq.
Qed.

Lemma insert_pattern_bounded t pattern t' :
  bounded t → _insert_pattern py_int t pattern = Ok t' → bounded t'.
Proof.
  intros Hb. unfold _insert_pattern.
  destruct (pattern_points py_int pattern) as [pts|] eqn:Hp; simpl; [|done].
  intros [= <-]. apply bounded_insert; [done|].
  by apply pattern_points_length.
Qed.

Lemma insert_patterns_bounded tokens t t' :
  bounded t → for_each (_insert_pattern py_int) tokens t = Ok t' → bounded t'.
Proof.
  revert t. induction tokens as [|tok tokens IH]; intros t Hb; simpl.
  - by intros [= <-].
  - destruct (_insert_pattern py_int t tok) as [t1|] eqn:H1; simpl; [|done].
    apply IH. by eapply insert_pattern_bounded.
Qed.

Lemma init_inv patterns excs self :
  __init__ py_int patterns excs = Ok self →
  for_each (_insert_pattern py_int) (split patterns) empty_trie = Ok (tree self)
  ∧ exceptions self = fold_left add_exception (split excs) ∅.
Proof.
  unfold __init__.
  destruct (for_each _ _ _) as [t|]; simpl; [|done]. by intros [= <-].
Qed.

Lemma init_bounded patterns excs self :
  __init__ py_int patterns excs = Ok self → bounded (tree self).
Proof.
  intros [Ht _]%init_inv.
  eapply insert_patterns_bounded; [apply bounded_empty | done].
Qed.

(** ** The exception table *)

Lemma exceptions_origin (tokens : list (list N)) (m0 : gmap (list N) (list Z)) key pts :
  fold_left add_exception tokens m0 !! key = Some pts →
  m0 !! key = Some pts
  ∨ ∃ ex, ex ∈ tokens ∧ key = exception_key ex ∧ pts = exception_points ex.
Proof.
  revert m0. induction tokens as [|ex tokens IH]; intros m0; simpl; [auto|].
  intros [Hm | (ex' & Hin & ? & ?)]%IH.
  - unfold add_exception in Hm.
    destruct (decide (exception_key ex = key)) as [<-|Hne].
    + rewrite lookup_insert_eq in Hm. injection Hm as <-.
      right. exists ex. split; [left | done].
    + rewrite lookup_insert_ne in Hm by done. auto.
  - right. exists ex'. split; [by right | done].
Qed.

Lemma exceptions_last (before after : list (list N)) (ex : list N)
    (m0 : gmap (list N) (list Z)) :
  Forall (λ ex', exception_key ex' ≠ exception_key ex) after →
  fold_left add_exception (before ++ ex :: after) m0 !! exception_key ex
  = Some (exception_points ex).
Proof.
  intros Hafter. rewrite fold_left_app. simpl.
  generalize (fold_left add_exception before m0). intros m1.
  assert (add_exception m1 ex !! exception_key ex = Some (exception_points ex)) as H1.
  { unfold add_exception. apply lookup_insert_eq. }
  revert H1. generalize (add_exception m1 ex). clear m1.
  induction Hafter as [|ex' after Hne _ IH]; intros m1 H1; simpl; [done|].
  apply IH. unfold add_exception. by rewrite lookup_insert_ne.
Qed.

Lemma exception_points_length ex :
  length (exception_points ex) = S (S (length (List.filter is_az ex))).
Proof.
  unfold exception_points. simpl. by rewrite length_map, re_split_length.
Qed.

Lemma plain_exception_key ex :
  plain_exception ex → exception_key ex = List.filter is_az ex.
Proof.
  unfold exception_key, remove_char.
  induction 1 as [|c ex Hc _ IH]; simpl; [done|].
  rewrite IH.
  assert (negb (c =? HYPHEN)%N = is_az c) as ->; [|done].
  destruct (is_az c) eqn:Haz; destruct (c =? HYPHEN)%N eqn:Hh;
    try done; char_class; lia.
Qed.

(** ** Hyphenating *)

(** The point list a word gets never raises, and when it comes from the
    scan it has a slot for every character of the padded word and one
    more. *)
Lemma word_points_scan patterns excs self word :
  __init__ py_int patterns excs = Ok self →
  exceptions self !! lower word = None →
  ∃ points, word_points lower self word = Ok points
    ∧ length points = (length (lower word) + 3)%nat.
Proof.
  intros Hinit Hnone. unfold word_points. rewrite Hnone.
  destruct (scan_spec (tree self) ([DOT] ++ lower word ++ [DOT]))
    as (points & -> & Hlen & _); [by eapply init_bounded|].
  exists points. split; [done|]. rewrite Hlen.
  simpl. rewrite length_app. simpl. lia.
Qed.

Lemma word_points_total patterns excs self word :
  __init__ py_int patterns excs = Ok self →
  ∃ points, word_points lower self word = Ok points.
Proof.
  intros Hinit. destruct (exceptions self !! lower word) as [pts|] eqn:Hex.
  - exists pts. unfold word_points. by rewrite Hex.
  - destruct (word_points_scan _ _ _ word Hinit Hex) as (points & ? & _).
    by exists points.
Qed.

Lemma word_points_plain patterns excs self word points :
  __init__ py_int patterns excs = Ok self →
  Forall plain_exception (split excs) →
  exceptions self !! lower word = Some points →
  length points = (length (lower word) + 2)%nat.
Proof.
  intros [_ Hexc]%init_inv Hplain Hex. rewrite Hexc in Hex.
  apply exceptions_origin in Hex as [Hex | (ex & Hin & Hkey & ->)]; [done|].
  rewrite Forall_forall in Hplain. specialize (Hplain ex Hin).
  rewrite exception_points_length, Hkey, plain_exception_key by done. lia.
Qed.

Lemma hyphenate_word_unfold self word points :
  word_points lower self word = Ok points →
  hyphenate_word lower self word = build_pieces word (drop 2 points).
Proof. intros H. unfold hyphenate_word. by rewrite H. Qed.

(** C8: on a Hyphenator that was built, [hyphenate_word] returns a list
    of pieces for every string and raises nothing: every store of the
    scan is in range and [pieces] always has a last element. *)
Theorem hyphenate_word_total patterns excs self word :
  __init__ py_int patterns excs = Ok self →
  ∃ pieces, hyphenate_word lower self word = Ok pieces.
Proof.
  intros Hinit.
  destruct (word_points_total _ _ _ word Hinit) as (points & Hpts).
  rewrite (hyphenate_word_unfold _ _ _ Hpts).
  destruct (build_pieces_spec word (drop 2 points)) as (pieces & ? & _).
  by exists pieces.
Qed.

(** C1 (amended): when [str.lower] never shortens a string, and either
    every exception token is written with lower-case ASCII letters and
    hyphens only or the word is not an exception, the pieces of a word
    concatenate to the word itself, character for character. *)
Theorem hyphenate_word_concat patterns excs self word :
  lower_never_shortens lower →
  __init__ py_int patterns excs = Ok self →
  Forall plain_exception (split excs) ∨ exceptions self !! lower word = None →
  ∃ pieces, hyphenate_word lower self word = Ok pieces ∧ concat pieces = word.
Proof.
  intros Hlower Hinit Hexc.
  assert (∃ points, word_points lower self word = Ok points
                    ∧ (length word + 2 ≤ length points)%nat)
    as (points & Hpts & Hlen).
  { destruct (exceptions self !! lower word) as [pts|] eqn:Hex.
    - destruct Hexc as [Hplain|?]; [|done].
      exists pts. split; [unfold word_points; by rewrite Hex|].
      rewrite (word_points_plain _ _ _ _ _ Hinit Hplain Hex).
      specialize (Hlower word). lia.
    - destruct (word_points_scan _ _ _ word Hinit Hex) as (points & ? & Hl).
      exists points. split; [done|]. specialize (Hlower word). lia. }
  rewrite (hyphenate_word_unfold _ _ _ Hpts).
  apply build_pieces_whole. rewrite length_drop. lia.
Qed.

(** C9: the empty word gives one piece, the empty string, whatever the
    Hyphenator; joined with hyphens it is the empty string. *)
Theorem hyphenate_empty_word patterns excs self :
  __init__ py_int patterns excs = Ok self →
  hyphenate_word lower self [] = Ok [[]]
  ∧ hyphenate_word_as_string lower self [] = Ok [].
Proof.
  intros Hinit.
  destruct (word_points_total _ _ _ [] Hinit) as (points & Hpts).
  assert (hyphenate_word lower self [] = Ok [[]]) as Hw.
  { by rewrite (hyphenate_word_unfold _ _ _ Hpts). }
  split; [done|]. unfold hyphenate_word_as_string. by rewrite Hw.
Qed.

(** C6 (amended): [hyphenate_word] returns at least one piece; when the
    point list reaches over the whole word and is even at every slot
    paired with a character (the slot after the last character included),
    the only piece is the word; this is so for every word that is not an
    exception when there are no patterns. *)
Theorem hyphenate_word_pieces patterns excs self word :
  __init__ py_int patterns excs = Ok self →
  ∃ points pieces,
    word_points lower self word = Ok points
    ∧ hyphenate_word lower self word = Ok pieces
    ∧ (1 ≤ length pieces)%nat
    ∧ ((length word + 2 ≤ length points)%nat →
       (∀ k z, (k < length word)%nat → points !! (2 + k)%nat = Some z →
               z mod 2 = 0) →
       pieces = [word])
    ∧ (lower_never_shortens lower →
       split patterns = [] → exceptions self !! lower word = None →
       pieces = [word]).
Proof.
  intros Hinit.
  destruct (word_points_total _ _ _ word Hinit) as (points & Hpts).
  destruct (build_pieces_spec word (drop 2 points)) as (pieces & Hps & Hne & _).
  exists points, pieces. split; [done|].
  rewrite (hyphenate_word_unfold _ _ _ Hpts). split; [done|].
  split; [destruct pieces; simpl; [done | lia]|].
  assert ((length word + 2 ≤ length points)%nat →
          (∀ k z, (k < length word)%nat → points !! (2 + k)%nat = Some z →
                  z mod 2 = 0) →
          pieces = [word]) as Heven.
  { intros Hlen Hev.
    rewrite build_pieces_single in Hps; [by injection Hps | |].
    - rewrite length_drop. lia.
    - apply Forall_forall. intros z [k Hk]%list_elem_of_lookup_1.
      apply lookup_take_Some in Hk as [Hk Hlt]. rewrite lookup_drop in Hk.
      unfold truthy. rewrite (Hev k z Hlt Hk). done. }
  split; [done|].
  intros Hlower Hnopat Hnoex. 
  destruct (init_inv _ _ _ Hinit) as [Htree _]. rewrite Hnopat in Htree.
  simpl in Htree. injection Htree as Htree.
  pose proof Hpts as Hpts'. unfold word_points in Hpts'.
  rewrite Hnoex, <- Htree in Hpts'.
  destruct (scan_spec empty_trie ([DOT] ++ lower word ++ [DOT]) bounded_empty)
    as (points' & Hscan & Hlen & Hslots).
  rewrite Hscan in Hpts'. injection Hpts' as ->.
  assert (length points = length (lower word) + 3)%nat as Hlen'.
  { rewrite Hlen. simpl. rewrite length_app. simpl. lia. }
  specialize (Hlower word).
  apply Heven; [lia|]. intros k z Hk Hz.
  rewrite Hslots in Hz by lia. injection Hz as <-.
  by rewrite matches_empty.
Qed.

(** ** Patterns of the grammar *)


Lemma well_formed_chars pattern :
  well_formed_pattern pattern →
  List.filter is_pattern_letter pattern = pattern_chars pattern.
Proof.
  unfold pattern_chars, re_sub_empty.
  induction 1 as [|c x Hc _ IH]; simpl; [done|]. rewrite IH.
  assert (is_pattern_letter c = negb (is_digit c)) as ->; [|done].
  destruct (is_pattern_letter c) eqn:Hl.
  - symmetry. by apply pattern_letter_not_digit.
  - simpl in Hc. by rewrite Hc.
Qed.

Lemma well_formed_gaps pattern :
  well_formed_pattern pattern →
  Forall (Forall (λ c, is_digit c = true)) (re_split is_pattern_letter pattern).
Proof.
  intros Hwf. eapply Forall_impl; [by apply re_split_gaps|].
  intros gap Hgap. eapply Forall_impl; [done|].
  simpl. intros c [Hl Hc]. by rewrite Hl in Hc.
Qed.

Lemma well_formed_points pattern :
  int_reads_digits py_int → well_formed_pattern pattern →
  pattern_points py_int pattern
  = Ok (decimal <$> re_split is_pattern_letter pattern).
Proof.
  intros Hint Hwf. apply comprehension_Ok.
  eapply Forall_impl; [by apply well_formed_gaps|].
  intros gap Hgap. unfold int_or_0. destruct gap as [|d gap]; [done|].
  by rewrite Hint.
Qed.

Lemma insert_pattern_unfold t tok :
  _insert_pattern py_int t tok
  = pts ← pattern_points py_int tok; Ok (insert_path (pattern_chars tok) pts t).
Proof. done. Qed.

Lemma insert_patterns_inv (P : list N → list Z → Prop) tokens t t' :
  (∀ tok pts, tok ∈ tokens → pattern_points py_int tok = Ok pts →
              P (pattern_chars tok) pts) →
  (∀ path p, payload_at t path = Some p → P path p) →
  for_each (_insert_pattern py_int) tokens t = Ok t' →
  ∀ path p, payload_at t' path = Some p → P path p.
Proof.
  revert t. induction tokens as [|tok tokens IH]; intros t Htok Ht; simpl.
  - by intros [= <-].
  - rewrite insert_pattern_unfold.
    destruct (pattern_points py_int tok) as [pts|] eqn:Hp; simpl; [|done].
    apply IH.
    + intros tok' pts' Hin. apply Htok. by right.
    + apply payload_inv_insert; [done|]. apply Htok; [left | done].
Qed.

Lemma insert_patterns_Ok tokens t :
  Forall (λ tok, ∃ pts, pattern_points py_int tok = Ok pts) tokens →
  ∃ t', for_each (_insert_pattern py_int) tokens t = Ok t'.
Proof.
  intros Htok. revert t.
  induction Htok as [|tok tokens [pts Hp] _ IH]; intros t; simpl; [eauto|].
  rewrite insert_pattern_unfold, Hp. simpl. apply IH.
Qed.

(** C7: a pattern written with letters of the alphabet and ASCII digits
    parses into one weight per gap, one more than it has letters; the
    weight of a gap is the number written there in digits (0 when nothing
    is written, the digit itself when one digit is); and in a trie built
    from such patterns the point list at depth d has d+1 entries. *)
Theorem pattern_parse pattern patterns excs :
  int_reads_digits py_int →
  well_formed_pattern pattern →
  Forall well_formed_pattern (split patterns) →
  (∃ gaps,
      pattern_points py_int pattern = Ok (decimal <$> gaps)
      ∧ length (decimal <$> gaps) = (length (pattern_chars pattern) + 1)%nat
      ∧ interleave gaps (pattern_chars pattern) = pattern
      ∧ Forall (Forall (λ c, is_digit c = true)) gaps
      ∧ decimal [] = 0
      ∧ (∀ d, decimal [d] = digit_value d))
  ∧ (∃ self,
        __init__ py_int patterns excs = Ok self
        ∧ ∀ path p, payload_at (tree self) path = Some p →
                    length p = (length path + 1)%nat).
Proof.
  intros Hint Hwf Hall.
  assert (∀ tok, well_formed_pattern tok →
            ∃ pts, pattern_points py_int tok = Ok pts
                   ∧ length pts = (length (pattern_chars tok) + 1)%nat) as Hlen.
  { intros tok Htok. eexists. split; [by apply well_formed_points|].
    rewrite length_fmap, re_split_length, well_formed_chars by done. lia. }
  split.
  - exists (re_split is_pattern_letter pattern).
    split; [by apply well_formed_points|].
    split.
    { rewrite length_fmap, re_split_length, well_formed_chars by done. lia. }
    split.
    { rewrite <- well_formed_chars by done. apply re_split_interleave. }
    split; [by apply well_formed_gaps|].
    split; [done|]. intros d. unfold decimal. simpl. lia.
  - destruct (insert_patterns_Ok (split patterns) empty_trie) as [t Ht].
    { eapply Forall_impl; [done|]. intros tok Htok.
      destruct (Hlen tok Htok) as (pts & ? & _). eauto. }
    exists {| tree := t;
              exceptions := fold_left add_exception (split excs) ∅ |}.
    split; [unfold __init__; by rewrite Ht|]. simpl.
    eapply (insert_patterns_inv (λ path p, length p = (length path + 1)%nat));
      [| |done].
    + intros tok pts Hin Hp. rewrite Forall_forall in Hall.
      destruct (Hlen tok (Hall tok Hin)) as (pts' & Hp' & Hl). congruence.
    + intros path p. by rewrite payload_at_empty.
Qed.

(** C3: the scan gives every slot the greatest of 0 and the weights that
    the point lists found from any start offset of the padded word give
    to it; when none of these weights is negative, as for patterns
    written with digits, that is their maximum, and 0 when no pattern
    covers the slot; weights 1 and 2 on one slot resolve to 2. *)
Theorem scan_pointwise_maximum patterns excs self work :
  __init__ py_int patterns excs = Ok self →
  ∃ points,
    scan (tree self) work = Ok points
    ∧ length points = (length work + 1)%nat
    ∧ ∀ k, (k < length points)%nat →
        let ws := slot_weights (matches (tree self) work) k in
        points !! k = Some (max0 ws)
        ∧ (Forall (λ w, 0 ≤ w) ws → maximum_or_0 (max0 ws) ws)
        ∧ (int_reads_digits py_int → Forall well_formed_pattern (split patterns) →
           maximum_or_0 (max0 ws) ws)
        ∧ (ws ≡ₚ [1; 2] → points !! k = Some 2).
Proof.
  intros Hinit.
  destruct (scan_spec (tree self) work) as (points & Hscan & Hlen & Hslots);
    [by eapply init_bounded|].
  exists points. split; [done|]. split; [done|]. intros k Hk ws.
  split; [by apply Hslots|]. split; [apply max0_maximum|]. split.
  - intros Hint Hall. apply max0_maximum.
    apply Forall_forall. intros w (path & p & Hp & Hw)%slot_weights_origin.
    destruct (init_inv _ _ _ Hinit) as [Htree _].
    pose proof (insert_patterns_inv (λ _ p, Forall (λ w, 0 ≤ w) p)
                  (split patterns) empty_trie (tree self)) as Hinv.
    simpl in Hinv. eapply Forall_forall; [|exact Hw].
    eapply Hinv; [| |exact Htree|exact Hp].
    + intros tok pts Hin Hpts. rewrite Forall_forall in Hall.
      rewrite well_formed_points in Hpts by auto. injection Hpts as <-.
      apply Forall_fmap. eapply Forall_impl; [by apply well_formed_gaps; auto|].
      intros gap Hgap. by apply decimal_nonneg.
    + intros path' p'. by rewrite payload_at_empty.
  - intros Hp. rewrite Hslots by done. f_equal. by apply max0_one_two.
Qed.

(** ** The order of the patterns *)

Lemma insert_patterns_perm tokens1 tokens2 :
  tokens1 ≡ₚ tokens2 →
  NoDup (pattern_chars <$> tokens1) →
  ∀ t, for_each (_insert_pattern py_int) tokens1 t
       = for_each (_insert_pattern py_int) tokens2 t.
Proof.
  induction 1 as [|x l1 l2 Hperm IH|x y l|l1 l2 l3 H12 IH12 H23 IH23];
    intros Hnd t.
  - done.
  - simpl. apply NoDup_cons in Hnd as [_ Hnd].
    destruct (_insert_pattern py_int t x); simpl; [by apply IH | done].
  - simpl. rewrite !insert_pattern_unfold.
    apply NoDup_cons in Hnd as [Hy _].
    assert (pattern_chars y ≠ pattern_chars x) as Hne.
    { intros Heq. apply Hy. rewrite Heq. left. }
    destruct (pattern_points py_int y) as [py|ey] eqn:Hpy;
      destruct (pattern_points py_int x) as [px|ex] eqn:Hpx; simpl;
      rewrite ?insert_pattern_unfold, ?Hpy, ?Hpx; simpl; try done.
    + by rewrite insert_path_comm.
    + apply pattern_points_raises in Hpy, Hpx. by subst.
  - rewrite IH12 by done. apply IH23. by rewrite <- H12.
Qed.

(** C5 (amended): two orders of the same pattern tokens, no two of which
    have the same letters, build the same Hyphenator, and so give the same
    result for every word. *)
Theorem insertion_order_irrelevant patterns1 patterns2 excs word :
  split patterns1 ≡ₚ split patterns2 →
  NoDup (pattern_chars <$> split patterns1) →
  __init__ py_int patterns1 excs = __init__ py_int patterns2 excs
  ∧ (self ← __init__ py_int patterns1 excs; hyphenate_word lower self word)
    = (self ← __init__ py_int patterns2 excs; hyphenate_word lower self word).
Proof.
  intros Hperm Hnd.
  assert (__init__ py_int patterns1 excs = __init__ py_int patterns2 excs) as ->.
  { unfold __init__. by rewrite (insert_patterns_perm _ _ Hperm Hnd). }
  done.
Qed.

(** ** The exceptions *)

(** The gaps of a token of letters a-z and hyphens are runs of hyphens. *)
Lemma plain_exception_gaps ex :
  plain_exception ex →
  Forall (Forall (λ c, c = HYPHEN)) (re_split is_az ex).
Proof.
  intros Hplain. eapply Forall_impl; [by apply re_split_gaps|].
  intros gap Hgap. eapply Forall_impl; [done|].
  simpl. intros c [Haz Hc]. rewrite Haz in Hc. by apply N.eqb_eq in Hc.
Qed.

(** What line 33 stores for a run of hyphens: 1 exactly when the run is one
    hyphen. *)
Lemma hyphen_run_flag (gap : list N) :
  Forall (λ c, c = HYPHEN) gap →
  (if decide (gap = [HYPHEN]) then 1 else 0)
  = (if decide (length gap = 1%nat) then 1 else 0).
Proof.
  intros Hgap. destruct gap as [|c [|c' gap]].
  - by rewrite !decide_False.
  - apply Forall_cons in Hgap as [-> _]. by rewrite !decide_True.
  - by rewrite !decide_False.
Qed.

(** C4 (amended): a token of the exceptions string written with lower-case
    ASCII letters and hyphens only, the last one with its key, is stored
    under the token without its hyphens; its point list has len(key)+2
    entries: a leading 0, then one entry per boundary around the letters
    of the key, 1 where the run of hyphens written at the boundary is
    exactly one hyphen and 0 elsewhere. *)
Theorem exception_entry patterns excs self (before after : list (list N)) ex :
  __init__ py_int patterns excs = Ok self →
  split excs = before ++ ex :: after →
  Forall (λ ex', exception_key ex' ≠ exception_key ex) after →
  plain_exception ex →
  ∃ gaps points,
    exceptions self !! exception_key ex = Some points
    ∧ interleave gaps (exception_key ex) = ex
    ∧ Forall (Forall (λ c, c = HYPHEN)) gaps
    ∧ length gaps = (length (exception_key ex) + 1)%nat
    ∧ points
      = 0 :: ((λ gap : list N, if decide (length gap = 1%nat) then 1 else 0)
                <$> gaps)
    ∧ length points = (length (exception_key ex) + 2)%nat.
Proof.
  intros [_ Hexc]%init_inv Hsplit Hafter Hplain.
  pose proof (plain_exception_gaps ex Hplain) as Hgaps.
  exists (re_split is_az ex), (exception_points ex).
  rewrite (plain_exception_key ex Hplain).
  split.
  { rewrite <- (plain_exception_key ex Hplain), Hexc, Hsplit.
    by apply exceptions_last. }
  split; [apply re_split_interleave|].
  split; [done|].
  split; [rewrite re_split_length; lia|].
  split; [|rewrite exception_points_length; lia].
  unfold exception_points. f_equal.
  induction Hgaps as [|gap gaps Hgap _ IH]; [done|].
  simpl. by rewrite IH, (hyphen_run_flag gap Hgap).
Qed.

(** C2: when the lower-cased word is a key of the exception table, the
    result is built from the stored point list alone, whatever the trie
    is; with the exceptions string "as-so-ciate", "associate" gives the
    pieces "as", "so", "ciate" for every pattern set. *)
Theorem exception_precedence patterns excs self word points :
  __init__ py_int patterns excs = Ok self →
  exceptions self !! lower word = Some points →
  word_points lower self word = Ok points
  ∧ (∀ other,
       hyphenate_word lower {| tree := other; exceptions := exceptions self |} word
       = build_pieces word (drop 2 points))
  ∧ (excs = s "as-so-ciate" → word = s "associate" →
     lower (s "associate") = s "associate" →
     hyphenate_word lower self word = Ok [s "as"; s "so"; s "ciate"]).
Proof.
  intros Hinit Hex.
  assert (∀ other,
           word_points lower {| tree := other; exceptions := exceptions self |} word
           = Ok points) as Hpts.
  { intros other. unfold word_points. simpl. by rewrite Hex. }
  split; [specialize (Hpts (tree self)); by destruct self|].
  split; [intros other; by apply hyphenate_word_unfold|].
  intros -> -> Hlow.
  rewrite (hyphenate_word_unfold self _ points).
  2:{ specialize (Hpts (tree self)). by destruct self. }
  apply init_inv in Hinit as [_ Hexc]. rewrite Hexc, Hlow in Hex.
  vm_compute in Hex. injection Hex as <-. by vm_compute.
Qed.

(** C10: a piece can be empty.  With the single pattern "a1." the word
    "a" gets an odd weight on the boundary after its last character, and
    the pieces are "a" and the empty string, "a-" when joined; their
    concatenation is still the word. *)
Theorem trailing_empty_piece :
  py_int (s "1") = Some 1 →
  lower (s "a") = s "a" →
  ∃ self,
    __init__ py_int (s "a1.") [] = Ok self
    ∧ word_points lower self (s "a") = Ok [0; 0; 1; 0]
    ∧ hyphenate_word lower self (s "a") = Ok [s "a"; []]
    ∧ hyphenate_word_as_string lower self (s "a") = Ok (s "a-")
    ∧ concat [s "a"; []] = s "a".
Proof.
  intros Hint Hlow.
  exists {| tree := insert_path (s "a.") [0; 1; 0] empty_trie; exceptions := ∅ |}.
  assert (pattern_points py_int (s "a1.") = Ok [0; 1; 0]) as Hpp.
  { unfold pattern_points. change (re_split is_pattern_letter (s "a1."))
      with [[]; s "1"; []]. simpl. by rewrite Hint. }
  assert (word_points lower
            {| tree := insert_path (s "a.") [0; 1; 0] empty_trie; exceptions := ∅ |}
            (s "a") = Ok [0; 0; 1; 0]) as Hpts.
  { unfold word_points. rewrite Hlow. by vm_compute. }
  assert (hyphenate_word lower
            {| tree := insert_path (s "a.") [0; 1; 0] empty_trie; exceptions := ∅ |}
            (s "a") = Ok [s "a"; []]) as Hw.
  { by rewrite (hyphenate_word_unfold _ _ _ Hpts). }
  split.
  { unfold __init__. change (split (s "a1.")) with [s "a1."].
    cbn [for_each]. rewrite insert_pattern_unfold, Hpp. done. }
  split; [done|]. split; [done|].
  split; [|done]. unfold hyphenate_word_as_string. by rewrite Hw.
Qed.

End Proofs.

(** * The builtins of the examples satisfy what the theorems ask of them *)

Lemma lower_latin1_length : lower_never_shortens lower_latin1.
Proof. intros w. unfold lower_latin1. by rewrite length_map. Qed.

Lemma digits_and_underscores_digits prev ds :
  Forall (λ c, is_digit c = true) ds → ds ≠ [] ∨ prev = true →
  digits_and_underscores prev ds = Some ds.
Proof.
  intros Hds. revert prev. induction Hds as [|c ds Hc _ IH]; intros prev Hne.
  - destruct Hne as [?| ->]; done.
  - simpl. rewrite Hc, IH by auto. done.
Qed.

Lemma int_ascii_reads_digits : int_reads_digits int_ascii.
Proof.
  intros [|c ds] Hne Hds; [done|].
  pose proof Hds as [Hc _]%Forall_cons. unfold int_ascii.
  assert ((c =? 45)%N = false ∧ (c =? 43)%N = false) as [-> ->].
  { split; apply N.eqb_neq; char_class; lia. }
  by rewrite digits_and_underscores_digits by auto.
Qed.

Lemma Forall_forallb {A} (f : A → bool) (l : list A) :
  forallb f l = true → Forall (λ x, f x = true) l.
Proof.
  induction l as [|x l IH]; simpl; [constructor|].
  intros [Hx Hl]%andb_true_iff. constructor; auto.
Qed.

Lemma well_formed_patterns_check (tokens : list (list N)) :
  forallb (forallb (λ c, is_pattern_letter c || is_digit c)) tokens = true →
  Forall well_formed_pattern tokens.
Proof.
  intros H%Forall_forallb. eapply Forall_impl; [exact H|].
  intros tok Htok. by apply Forall_forallb.
Qed.

Lemma plain_exceptions_check (tokens : list (list N)) :
  forallb (forallb (λ c, is_az c || (c =? HYPHEN)%N)) tokens = true →
  Forall plain_exception tokens.
Proof.
  intros H%Forall_forallb. eapply Forall_impl; [exact H|].
  intros tok Htok. by apply Forall_forallb.
Qed.

(** * The theorems at concrete inputs *)

Lemma hyphenate_word_total_witness :
  __init__ int_ascii demo_patterns demo_exceptions = Ok demo
  ∧ ∃ pieces, hyphenate_word lower_latin1 demo (s "Hyphen-8") = Ok pieces.
Proof.
  split; [by vm_compute|].
  apply (hyphenate_word_total lower_latin1 int_ascii demo_patterns demo_exceptions).
  by vm_compute.
Defined.

Lemma hyphenate_word_concat_witness :
  lower_never_shortens lower_latin1
  ∧ __init__ int_ascii demo_patterns demo_exceptions = Ok demo
  ∧ Forall plain_exception (split demo_exceptions)
  ∧ ∃ pieces, hyphenate_word lower_latin1 demo (s "Hyphenation") = Ok pieces
              ∧ concat pieces = s "Hyphenation".
Proof.
  assert (Forall plain_exception (split demo_exceptions)) as Hplain.
  { apply plain_exceptions_check. by vm_compute. }
  split; [apply lower_latin1_length|]. split; [by vm_compute|].
  split; [done|].
  apply (hyphenate_word_concat lower_latin1 int_ascii demo_patterns demo_exceptions).
  - apply lower_latin1_length.
  - by vm_compute.
  - by left.
Defined.

Lemma hyphenate_empty_word_witness :
  __init__ int_ascii demo_patterns (s "as-so-ciate -") = Ok (built demo_patterns (s "as-so-ciate -"))
  ∧ hyphenate_word lower_latin1 (built demo_patterns (s "as-so-ciate -")) [] = Ok [[]]
  ∧ hyphenate_word_as_string lower_latin1 (built demo_patterns (s "as-so-ciate -")) [] = Ok [].
Proof.
  split; [by vm_compute|].
  apply (hyphenate_empty_word lower_latin1 int_ascii demo_patterns (s "as-so-ciate -")).
  by vm_compute.
Defined.

Lemma hyphenate_word_pieces_witness :
  __init__ int_ascii [] [] = Ok (built [] [])
  ∧ hyphenate_word lower_latin1 (built [] []) (s "xyz") = Ok [s "xyz"]
  ∧ __init__ int_ascii demo_patterns demo_exceptions = Ok demo
  ∧ word_points lower_latin1 demo (s "abc") = Ok [0; 0; 2; 0; 0; 0]
  ∧ hyphenate_word lower_latin1 demo (s "abc") = Ok [s "abc"].
Proof.
  split; [by vm_compute|]. split.
  { pose proof (hyphenate_word_pieces lower_latin1 int_ascii [] [] (built [] [])
                  (s "xyz")) as H.
    destruct H as (points & pieces & _ & Hw & _ & _ & Hnone); [by vm_compute|].
    rewrite Hw. f_equal.
    apply Hnone; [apply lower_latin1_length | reflexivity | by vm_compute]. }
  split; [by vm_compute|].
  assert (word_points lower_latin1 demo (s "abc") = Ok [0; 0; 2; 0; 0; 0]) as Hpts
    by (by vm_compute).
  split; [exact Hpts|].
  pose proof (hyphenate_word_pieces lower_latin1 int_ascii demo_patterns
                demo_exceptions demo (s "abc")) as H.
  destruct H as (points & pieces & Hp & Hw & _ & Heven & _); [by vm_compute|].
  rewrite Hpts in Hp. injection Hp as <-.
  rewrite Hw. f_equal. apply Heven; [simpl; lia|].
  intros [|[|[|k]]] z Hk; simpl; try (by intros [= <-]).
  simpl in Hk. lia.
Defined.

Lemma pattern_parse_witness :
  int_reads_digits int_ascii
  ∧ well_formed_pattern (s "hen5at")
  ∧ Forall well_formed_pattern (split demo_patterns)
  ∧ pattern_points int_ascii (s "hen5at") = Ok [0; 0; 0; 5; 0; 0]
  ∧ ∃ self, __init__ int_ascii demo_patterns demo_exceptions = Ok self
            ∧ ∀ path p, payload_at (tree self) path = Some p →
                        length p = (length path + 1)%nat.
Proof.
  assert (well_formed_pattern (s "hen5at")) as Hwf.
  { apply Forall_forallb. by vm_compute. }
  assert (Forall well_formed_pattern (split demo_patterns)) as Hall.
  { apply well_formed_patterns_check. by vm_compute. }
  split; [apply int_ascii_reads_digits|]. split; [done|]. split; [done|].
  destruct (pattern_parse int_ascii (s "hen5at") demo_patterns demo_exceptions
              int_ascii_reads_digits Hwf Hall) as [_ Htrie].
  split; [by vm_compute | exact Htrie].
Defined.

Lemma scan_pointwise_maximum_witness :
  __init__ int_ascii demo_patterns demo_exceptions = Ok demo
  ∧ slot_weights (matches (tree demo) (s ".abc.")) 2 = [1; 2]
  ∧ ∃ points, scan (tree demo) (s ".abc.") = Ok points
              ∧ points !! 2%nat = Some 2.
Proof.
  split; [by vm_compute|]. split; [by vm_compute|].
  destruct (scan_pointwise_maximum int_ascii demo_patterns demo_exceptions demo
              (s ".abc.")) as (points & Hscan & Hlen & Hslots); [by vm_compute|].
  exists points. split; [done|].
  destruct (Hslots 2%nat) as (_ & _ & _ & Htwo).
  - rewrite Hlen. simpl. lia.
  - apply Htwo. by vm_compute.
Defined.

Lemma insertion_order_irrelevant_witness :
  split (s "a1b 2bc hy3ph") ≡ₚ split (s "hy3ph a1b 2bc")
  ∧ NoDup (pattern_chars <$> split (s "a1b 2bc hy3ph"))
  ∧ __init__ int_ascii (s "a1b 2bc hy3ph") [] = __init__ int_ascii (s "hy3ph a1b 2bc") [].
Proof.
  assert (split (s "a1b 2bc hy3ph") ≡ₚ split (s "hy3ph a1b 2bc")) as Hperm.
  { change (split (s "a1b 2bc hy3ph")) with [s "a1b"; s "2bc"; s "hy3ph"].
    change (split (s "hy3ph a1b 2bc")) with [s "hy3ph"; s "a1b"; s "2bc"].
    apply (Permutation_app_comm [s "a1b"; s "2bc"] [s "hy3ph"]). }
  assert (NoDup (pattern_chars <$> split (s "a1b 2bc hy3ph"))) as Hnd.
  { apply (bool_decide_unpack _). by vm_compute. }
  split; [done|]. split; [done|].
  apply (insertion_order_irrelevant lower_latin1 int_ascii _ _ [] (s "abc") Hperm Hnd).
Defined.

Lemma exception_entry_witness :
  __init__ int_ascii demo_patterns (s "x-y as-so--ciate a-b")
  = Ok (built demo_patterns (s "x-y as-so--ciate a-b"))
  ∧ split (s "x-y as-so--ciate a-b") = [s "x-y"] ++ s "as-so--ciate" :: [s "a-b"]
  ∧ Forall (λ ex', exception_key ex' ≠ exception_key (s "as-so--ciate")) [s "a-b"]
  ∧ plain_exception (s "as-so--ciate")
  ∧ exceptions (built demo_patterns (s "x-y as-so--ciate a-b")) !! s "associate"
    = Some [0; 0; 0; 1; 0; 0; 0; 0; 0; 0; 0]
  ∧ ∃ gaps points,
      exceptions (built demo_patterns (s "x-y as-so--ciate a-b")) !! s "associate"
      = Some points
      ∧ interleave gaps (s "associate") = s "as-so--ciate"
      ∧ points
        = 0 :: ((λ gap : list N, if decide (length gap = 1%nat) then 1 else 0)
                  <$> gaps)
      ∧ length points = 11%nat.
Proof.
  assert (Forall (λ ex', exception_key ex' ≠ exception_key (s "as-so--ciate"))
            [s "a-b"]) as Hafter.
  { repeat constructor. by vm_compute. }
  assert (plain_exception (s "as-so--ciate")) as Hplain.
  { apply Forall_forallb. by vm_compute. }
  split; [by vm_compute|]. split; [by vm_compute|]. split; [done|].
  split; [done|]. split; [by vm_compute|].
  pose proof (exception_entry int_ascii demo_patterns (s "x-y as-so--ciate a-b")
                (built demo_patterns (s "x-y as-so--ciate a-b"))
                [s "x-y"] [s "a-b"] (s "as-so--ciate")) as H.
  destruct H as (gaps & points & Hget & Hweave & _ & _ & Hpts & Hlen);
    [by vm_compute | by vm_compute | done | done |].
  exists gaps, points. split; [exact Hget|]. split; [exact Hweave|].
  split; [exact Hpts | exact Hlen].
Defined.

Lemma exception_precedence_witness :
  __init__ int_ascii demo_patterns demo_exceptions = Ok demo
  ∧ exceptions demo !! lower_latin1 (s "associate")
    = Some [0; 0; 0; 1; 0; 1; 0; 0; 0; 0; 0]
  ∧ hyphenate_word lower_latin1 demo (s "associate")
    = Ok [s "as"; s "so"; s "ciate"]
  ∧ hyphenate_word lower_latin1 (built demo_patterns []) (s "associate")
    = Ok [s "a"; s "ssociate"].
Proof.
  split; [by vm_compute|]. split; [by vm_compute|].
  split; [|by vm_compute].
  destruct (exception_precedence lower_latin1 int_ascii demo_patterns
              demo_exceptions demo (s "associate")
              [0; 0; 0; 1; 0; 1; 0; 0; 0; 0; 0])
    as (_ & _ & Hassoc); [by vm_compute | by vm_compute |].
  by apply Hassoc.
Defined.

Lemma trailing_empty_piece_witness :
  int_ascii (s "1") = Some 1
  ∧ lower_latin1 (s "a") = s "a"
  ∧ ∃ self,
      __init__ int_ascii (s "a1.") [] = Ok self
      ∧ word_points lower_latin1 self (s "a") = Ok [0; 0; 1; 0]
      ∧ hyphenate_word lower_latin1 self (s "a") = Ok [s "a"; []]
      ∧ hyphenate_word_as_string lower_latin1 self (s "a") = Ok (s "a-")
      ∧ concat [s "a"; []] = s "a".
Proof.
  split; [done|]. split; [done|].
  apply (trailing_empty_piece lower_latin1 int_ascii); done.
Defined.

(** * Where the code departs from a claim *)

(** C1 as stated fails: an exception token with a character outside a-z
    gets a point list shorter than its key, and [zip] then drops the end of
    the word.  With the exception "x1", the word "x1" comes back as "x". *)
Lemma hyphenate_word_concat_counterexample :
  __init__ int_ascii [] (s "x1") = Ok (built [] (s "x1"))
  ∧ exceptions (built [] (s "x1")) !! lower_latin1 (s "x1") = Some [0; 0; 0]
  ∧ hyphenate_word lower_latin1 (built [] (s "x1")) (s "x1") = Ok [s "x"]
  ∧ concat [s "x"] ≠ s "x1".
Proof. repeat split; by vm_compute. Qed.

(** The same truncation with a letter of the pattern alphabet that line 33
    does not split on: the exception "ni-ño" turns "niño" into "niñ". *)
Example accented_exception_truncates :
  hyphenate_word lower_latin1
    (built [] (s "ni-" ++ [n_tilde] ++ s "o")) (s "ni" ++ [n_tilde] ++ s "o")
  = Ok [s "ni" ++ [n_tilde]].
Proof. by vm_compute. Qed.

(** C4 as stated fails: the point list of "as-so-ciate" has 11 entries, not
    len("associate")+1 = 10, and "As-so" is stored under "Asso", not under
    its lower-cased key. *)
Lemma exception_entry_counterexample :
  __init__ int_ascii [] (s "as-so-ciate As-so")
  = Ok (built [] (s "as-so-ciate As-so"))
  ∧ exceptions (built [] (s "as-so-ciate As-so")) !! s "associate"
    = Some [0; 0; 0; 1; 0; 1; 0; 0; 0; 0; 0]
  ∧ length [0; 0; 0; 1; 0; 1; 0; 0; 0; 0; 0] ≠ (length (s "associate") + 1)%nat
  ∧ exceptions (built [] (s "as-so-ciate As-so"))
      !! lower_latin1 (exception_key (s "As-so")) = None
  ∧ exceptions (built [] (s "as-so-ciate As-so")) !! s "Asso"
    = Some [0; 0; 1; 0; 0].
Proof. repeat split; by vm_compute. Qed.

(** C5 as stated fails: "a1b" and "a2b" are two tokens with the same
    letters, the one inserted last replaces the other, and "ab" is split in
    one order and not in the other. *)
Lemma insertion_order_counterexample :
  split (s "a1b a2b") ≡ₚ split (s "a2b a1b")
  ∧ NoDup (split (s "a1b a2b"))
  ∧ (self ← __init__ int_ascii (s "a1b a2b") []; hyphenate_word lower_latin1 self (s "ab"))
    = Ok [s "ab"]
  ∧ (self ← __init__ int_ascii (s "a2b a1b") []; hyphenate_word lower_latin1 self (s "ab"))
    = Ok [s "a"; s "b"].
Proof.
  split; [apply perm_swap|].
  split; [apply (bool_decide_unpack _); by vm_compute|].
  split; by vm_compute.
Qed.

(** C6 as stated fails: with the pattern "b1." the only slot between two
    letters of "ab" is even, yet the odd weight after the last letter opens
    a second, empty piece; and with the exception "x1" no weight is odd,
    yet the one piece of "x1" is "x". *)
Lemma hyphenate_word_pieces_counterexample :
  __init__ int_ascii (s "b1.") [] = Ok (built (s "b1.") [])
  ∧ word_points lower_latin1 (built (s "b1.") []) (s "ab") = Ok [0; 0; 0; 1; 0]
  ∧ (∀ k z, (k + 1 < length (s "ab"))%nat →
            [0; 0; 0; 1; 0] !! (2 + k)%nat = Some z → z mod 2 = 0)
  ∧ hyphenate_word lower_latin1 (built (s "b1.") []) (s "ab") = Ok [s "ab"; []]
  ∧ [s "ab"; []] ≠ [s "ab"]
  ∧ word_points lower_latin1 (built [] (s "x1")) (s "x1") = Ok [0; 0; 0]
  ∧ hyphenate_word lower_latin1 (built [] (s "x1")) (s "x1") = Ok [s "x"]
  ∧ [s "x"] ≠ [s "x1"].
Proof.
  split; [by vm_compute|]. split; [by vm_compute|].
  split.
  { intros [|k] z Hk; [|simpl in Hk; lia]. by intros [= <-]. }
  repeat split; by vm_compute.
Qed.

(** * Further properties of the trie *)

Lemma descend_empty path : is_Some (descend empty_trie path) ↔ path = [].
Proof.
  destruct path as [|c path]; simpl; [by split; eauto|].
  split; [by intros [? ?] | done].
Qed.

Lemma descend_insert chars points t path :
  is_Some (descend (insert_path chars points t) path)
  ↔ is_Some (descend t path) ∨ path `prefix_of` chars.
Proof.
  revert t path. induction chars as [|c chars IH]; intros t path.
  - destruct path as [|c' path]; simpl.
    + split; [eauto | by intros _; eauto].
    + split; [by left | intros [?|Hp]; [done|]].
      by apply prefix_nil_not in Hp.
  - destruct path as [|c' path]; cbn [insert_path descend children].
    { split; [intros _; right; apply prefix_nil | by eauto]. }
    destruct (decide (c = c')) as [<-|Hne].
    + rewrite lookup_insert_eq, IH.
      destruct (children t !! c) as [t1|]; simpl.
      * split; (intros [?|Hp]; [by left | right]).
        -- by apply prefix_cons.
        -- by apply prefix_cons_inv_2 in Hp.
      * rewrite descend_empty. split.
        -- intros [->|Hp]; right; [apply prefix_cons, prefix_nil|].
           by apply prefix_cons.
        -- intros [[? ?]|Hp]; [done|]. right. by apply prefix_cons_inv_2 in Hp.
    + rewrite lookup_insert_ne by done. split; [by left|].
      intros [?|Hp]; [done|]. by apply prefix_cons_inv_1 in Hp.
Qed.

Lemma insert_path_twice chars p1 p2 t :
  insert_path chars p2 (insert_path chars p1 t) = insert_path chars p2 t.
Proof.
  revert t. induction chars as [|c chars IH]; intros t; [done|].
  cbn [insert_path children payload].
  rewrite lookup_insert_eq, insert_insert_eq. simpl. by rewrite IH.
Qed.

Lemma comprehension_Ok_inv {A B} (f : A → result B) xs :
  (∃ ys, comprehension f xs = Ok ys) ↔ Forall (λ x, ∃ y, f x = Ok y) xs.
Proof.
  induction xs as [|x xs IH]; simpl.
  - split; [constructor | by eauto].
  - split.
    + intros [ys Hys]. destruct (f x) as [y|] eqn:Hx; simpl in Hys; [|done].
      destruct (comprehension f xs) as [ys'|] eqn:Hxs; simpl in Hys; [|done].
      constructor; [by eauto|]. apply IH. by eauto.
    + intros [[y ->] [ys ->]%IH]%Forall_cons. simpl. by eauto.
Qed.

Section Coverage.

Variable lower : str → str.
Variable py_int : str → option Z.

(** X1: inserting a pattern makes its letters lead to its points, leaves
    what every other path leads to as it was, and removes no node. *)
Theorem insert_pattern_lookup t pattern t' :
  _insert_pattern py_int t pattern = Ok t' →
  ∃ points,
    pattern_points py_int pattern = Ok points
    ∧ payload_at t' (pattern_chars pattern) = Some points
    ∧ (∀ path, path ≠ pattern_chars pattern →
               payload_at t' path = payload_at t path)
    ∧ (∀ path, is_Some (descend t path) → is_Some (descend t' path)).
Proof.
  rewrite insert_pattern_unfold.
  destruct (pattern_points py_int pattern) as [pts|] eqn:Hp; simpl; [|done].
  intros [= <-]. exists pts. split; [done|]. split.
  { rewrite payload_at_insert. by rewrite decide_True. }
  split.
  - intros path Hne. rewrite payload_at_insert. by rewrite decide_False.
  - intros path Hsome. apply descend_insert. by left.
Qed.

Lemma insert_patterns_miss tokens t t' path :
  for_each (_insert_pattern py_int) tokens t = Ok t' →
  Forall (λ tok, pattern_chars tok ≠ path) tokens →
  payload_at t' path = payload_at t path.
Proof.
  intros Hrun Hne. revert t Hrun.
  induction Hne as [|tok tokens Htok _ IH]; intros t; simpl.
  - by intros [= <-].
  - rewrite insert_pattern_unfold.
    destruct (pattern_points py_int tok) as [pts|]; simpl; [|done].
    intros Hrun. rewrite (IH _ Hrun), payload_at_insert.
    by rewrite decide_False.
Qed.

Lemma insert_patterns_last (before after : list (list N)) tok t t' :
  for_each (_insert_pattern py_int) (before ++ tok :: after) t = Ok t' →
  Forall (λ tok', pattern_chars tok' ≠ pattern_chars tok) after →
  ∃ points, pattern_points py_int tok = Ok points
            ∧ payload_at t' (pattern_chars tok) = Some points.
Proof.
  rewrite for_each_app. intros (t1 & _ & Hrun)%bind_Ok Hafter.
  simpl in Hrun. rewrite insert_pattern_unfold in Hrun.
  destruct (pattern_points py_int tok) as [pts|]; simpl in Hrun; [|done].
  exists pts. split; [done|].
  rewrite (insert_patterns_miss _ _ _ _ Hrun Hafter), payload_at_insert.
  by rewrite decide_True.
Qed.

(** X2: after construction the letters of a pattern lead to the points of
    the last token that has these letters, and a path that is the letters
    of no token leads to no points. *)
Theorem init_lookup patterns excs self (before after : list (list N)) tok path :
  __init__ py_int patterns excs = Ok self →
  (split patterns = before ++ tok :: after →
   Forall (λ tok', pattern_chars tok' ≠ pattern_chars tok) after →
   ∃ points, pattern_points py_int tok = Ok points
             ∧ payload_at (tree self) (pattern_chars tok) = Some points)
  ∧ (Forall (λ tok', pattern_chars tok' ≠ path) (split patterns) →
     payload_at (tree self) path = None).
Proof.
  intros [Htree _]%init_inv. split.
  - intros Hsplit Hafter. rewrite Hsplit in Htree.
    by eapply insert_patterns_last.
  - intros Hmiss. rewrite (insert_patterns_miss _ _ _ _ Htree Hmiss).
    apply payload_at_empty.
Qed.

Lemma insert_patterns_nodes tokens t t' path :
  for_each (_insert_pattern py_int) tokens t = Ok t' →
  is_Some (descend t' path)
  ↔ is_Some (descend t path)
    ∨ ∃ tok, tok ∈ tokens ∧ path `prefix_of` pattern_chars tok.
Proof.
  revert t. induction tokens as [|tok tokens IH]; intros t; simpl.
  - intros [= <-]. split; [by left|]. intros [?|(tok & Hin & _)]; [done|].
    by apply elem_of_nil in Hin.
  - rewrite insert_pattern_unfold.
    destruct (pattern_points py_int tok) as [pts|]; simpl; [|done].
    intros Hrun. rewrite (IH _ Hrun), descend_insert. split.
    + intros [[?|Hp]|(tok' & Hin & Hp)]; [by left|right..].
      * exists tok. split; [left | done].
      * exists tok'. split; [by right | done].
    + intros [?|(tok' & [->|Hin]%elem_of_cons & Hp)].
      * by left; left.
      * by left; right.
      * right. by exists tok'.
Qed.

(** X3: the trie has a node exactly at the root and along the letters of
    the patterns: a path exists if and only if it is empty or a prefix of
    the letters of some token. *)
Theorem init_nodes patterns excs self path :
  __init__ py_int patterns excs = Ok self →
  is_Some (descend (tree self) path)
  ↔ path = [] ∨ ∃ tok, tok ∈ split patterns ∧ path `prefix_of` pattern_chars tok.
Proof.
  intros [Htree _]%init_inv.
  rewrite (insert_patterns_nodes _ _ _ path Htree), descend_empty. done.
Qed.

Lemma pattern_points_Ok_iff pattern :
  (∃ points, pattern_points py_int pattern = Ok points)
  ↔ Forall (λ gap, gap = [] ∨ is_Some (py_int gap))
           (re_split is_pattern_letter pattern).
Proof.
  unfold pattern_points. rewrite comprehension_Ok_inv.
  apply Forall_proper; [|done]. intros gap. unfold int_or_0.
  destruct gap as [|c gap]; [by split; eauto|].
  destruct (py_int (c :: gap)) as [z|]; split.
  - intros _. right. by eauto.
  - by eauto.
  - by intros [? ?].
  - intros [?|[? ?]]; done.
Qed.

Lemma insert_patterns_Ok_inv tokens t t' :
  for_each (_insert_pattern py_int) tokens t = Ok t' →
  Forall (λ tok, ∃ pts, pattern_points py_int tok = Ok pts) tokens.
Proof.
  revert t. induction tokens as [|tok tokens IH]; intros t; simpl; [constructor|].
  rewrite insert_pattern_unfold.
  destruct (pattern_points py_int tok) as [pts|] eqn:Hp; simpl; [|done].
  intros Hrun. constructor; [by exists pts | by eapply IH].
Qed.

Lemma insert_patterns_raises tokens t e :
  for_each (_insert_pattern py_int) tokens t = Raise e → e = ValueError.
Proof.
  revert t. induction tokens as [|tok tokens IH]; intros t; simpl; [done|].
  rewrite insert_pattern_unfold.
  destruct (pattern_points py_int tok) as [pts|e'] eqn:Hp; simpl.
  - apply IH.
  - intros [= <-]. by eapply pattern_points_raises.
Qed.

(** X4: construction fails only with [ValueError], and it succeeds exactly
    when [int] accepts every non-empty run of characters that stands
    between the letters of a pattern token; the exceptions string never
    makes it fail. *)
Theorem init_errors patterns excs :
  (∀ e, __init__ py_int patterns excs = Raise e → e = ValueError)
  ∧ ((∃ self, __init__ py_int patterns excs = Ok self)
     ↔ Forall (λ tok, Forall (λ gap, gap = [] ∨ is_Some (py_int gap))
                             (re_split is_pattern_letter tok))
              (split patterns)).
Proof.
  unfold __init__. split.
  - intros e.
    destruct (for_each _ _ _) as [t|e'] eqn:Hrun; simpl; [done|].
    intros [= <-]. by eapply insert_patterns_raises.
  - split.
    + intros [self Hself].
      destruct (for_each _ _ _) as [t|] eqn:Hrun; simpl in Hself; [|done].
      apply insert_patterns_Ok_inv in Hrun.
      eapply Forall_impl; [exact Hrun|]. intros tok. apply pattern_points_Ok_iff.
    + intros Hall.
      destruct (insert_patterns_Ok py_int (split patterns) empty_trie) as [t ->].
      { eapply Forall_impl; [exact Hall|]. intros tok.
        apply pattern_points_Ok_iff. }
      simpl. by eauto.
Qed.

(** X5: whatever the tokens are, a point list stored in the trie has at
    least one entry and at most one more than the path to it has
    characters. *)
Theorem init_points_length patterns excs self path points :
  __init__ py_int patterns excs = Ok self →
  payload_at (tree self) path = Some points →
  (1 ≤ length points ≤ length path + 1)%nat.
Proof.
  intros [Htree _]%init_inv.
  eapply (insert_patterns_inv py_int
            (λ path p, (1 ≤ length p ≤ length path + 1)%nat)); [| |exact Htree].
  - intros tok pts _ Hp. split; [|by eapply pattern_points_length].
    apply comprehension_length in Hp. rewrite Hp, re_split_length. lia.
  - intros path' p'. by rewrite payload_at_empty.
Qed.

End Coverage.

(** * Further properties of the pieces *)

Lemma snd_zip_take {A B} (l : list A) (k : list B) :
  (zip l k).*2 = take (length l) k.
Proof.
  revert k. induction l as [|a l IH]; intros [|b k]; simpl; f_equal; auto.
Qed.

Lemma odd_slots_length slots : (length (odd_slots slots) ≤ length slots)%nat.
Proof.
  unfold odd_slots. induction slots as [|p slots IH]; simpl; [done|].
  destruct (truthy (p mod 2)); simpl; lia.
Qed.

Lemma odd_slots_cons p slots :
  odd_slots (p :: slots)
  = if truthy (p mod 2) then p :: odd_slots slots else odd_slots slots.
Proof. done. Qed.

(** Every piece that the loop closes holds the character appended just
    before; the number of closed pieces grows by one per odd slot. *)
Lemma pieces_loop_shape zs done cur :
  ∃ done' cur',
    for_each pieces_body zs (done ++ [cur]) = Ok (done' ++ [cur'])
    ∧ (Forall (λ piece, piece ≠ []) done → Forall (λ piece, piece ≠ []) done')
    ∧ length done' = (length done + length (odd_slots zs.*2))%nat.
Proof.
  revert done cur. induction zs as [|[c p] zs IH]; intros done cur.
  - exists done, cur. simpl. split; [done|]. split; [done|].
    unfold odd_slots. simpl. lia.
  - cbn [for_each]. rewrite append_to_last_snoc. cbn [mbind result_bind].
    rewrite fmap_cons. cbn [snd]. rewrite odd_slots_cons.
    destruct (truthy (p mod 2)).
    + destruct (IH (done ++ [cur ++ [c]]) []) as (d' & c' & -> & Hne & Hlen).
      exists d', c'. split; [done|]. split.
      * intros Hdone. apply Hne. apply Forall_app. split; [done|].
        constructor; [|done]. by destruct cur.
      * rewrite Hlen, length_app. simpl. lia.
    + destruct (IH done (cur ++ [c])) as (d' & c' & -> & Hne & Hlen).
      exists d', c'. split; [done|]. split; [done|]. by rewrite Hlen.
Qed.

(** Two runs of the loop over the same points keep pieces of the same
    lengths, whatever the characters are. *)
Lemma pieces_loop_lengths (zs1 zs2 : list (N * Z)) done1 cur1 done2 cur2 :
  zs1.*2 = zs2.*2 →
  length <$> done1 = length <$> done2 → length cur1 = length cur2 →
  ∃ ps1 ps2,
    for_each pieces_body zs1 (done1 ++ [cur1]) = Ok ps1
    ∧ for_each pieces_body zs2 (done2 ++ [cur2]) = Ok ps2
    ∧ length <$> ps1 = length <$> ps2.
Proof.
  revert zs2 done1 cur1 done2 cur2.
  induction zs1 as [|[c1 p] zs1 IH]; intros [|[c2 p2] zs2] d1 k1 d2 k2 Hsnd Hd Hk;
    try done.
  - exists (d1 ++ [k1]), (d2 ++ [k2]). split; [done|]. split; [done|].
    rewrite !fmap_app. simpl. by rewrite Hd, Hk.
  - simpl in Hsnd. injection Hsnd as <- Hsnd.
    cbn [for_each]. rewrite !append_to_last_snoc. cbn [mbind result_bind].
    destruct (truthy (p mod 2)).
    + apply (IH zs2 (d1 ++ [k1 ++ [c1]]) [] (d2 ++ [k2 ++ [c2]]) []); [done| |done].
      rewrite !fmap_app. simpl. rewrite !length_app. simpl. by rewrite Hd, Hk.
    + apply IH; [done..|]. rewrite !length_app. simpl. by rewrite Hk.
Qed.

Lemma join_cons sep x rest :
  rest ≠ [] → join sep (x :: rest) = x ++ sep ++ join sep rest.
Proof. by destruct rest. Qed.

Lemma join_snoc_char sep done cur c :
  join sep (done ++ [cur ++ [c]]) = join sep (done ++ [cur]) ++ [c].
Proof.
  induction done as [|x done IH]; [done|].
  rewrite <- !app_comm_cons, !join_cons, IH by (by destruct done).
  by rewrite <- !app_assoc.
Qed.

Lemma join_snoc_piece sep done cur :
  join sep ((done ++ [cur]) ++ [[]]) = join sep (done ++ [cur]) ++ sep.
Proof.
  induction done as [|x done IH]; [simpl; by rewrite app_nil_r|].
  rewrite <- !app_comm_cons, !join_cons, IH by (by destruct done).
  by rewrite <- !app_assoc.
Qed.

Lemma remove_char_app d x y :
  remove_char d (x ++ y) = remove_char d x ++ remove_char d y.
Proof. unfold remove_char. apply List.filter_app. Qed.

Lemma remove_char_absent d x : d ∉ x → remove_char d x = x.
Proof.
  unfold remove_char. induction x as [|c x IH]; simpl; [done|].
  intros Hd. apply not_elem_of_cons in Hd as [Hne Hd].
  assert ((c =? d)%N = false) as -> by (apply N.eqb_neq; congruence).
  simpl. by rewrite IH.
Qed.

Lemma remove_char_join d pieces :
  remove_char d (join [d] pieces) = remove_char d (concat pieces).
Proof.
  induction pieces as [|x pieces IH]; [done|].
  destruct pieces as [|y pieces]; [simpl; by rewrite app_nil_r|].
  change (join [d] (x :: y :: pieces)) with (x ++ [d] ++ join [d] (y :: pieces)).
  change (concat (x :: y :: pieces)) with (x ++ concat (y :: pieces)).
  rewrite !remove_char_app, IH. f_equal.
  unfold remove_char at 1. simpl. by rewrite N.eqb_refl.
Qed.

Lemma join_length sep pieces :
  length (join sep pieces)
  = (length (concat pieces) + length sep * (length pieces - 1))%nat.
Proof.
  induction pieces as [|x pieces IH]; [simpl; lia|].
  destruct pieces as [|y pieces]; [simpl; rewrite app_nil_r; lia|].
  change (join sep (x :: y :: pieces)) with (x ++ sep ++ join sep (y :: pieces)).
  change (concat (x :: y :: pieces)) with (x ++ concat (y :: pieces)).
  rewrite !length_app, IH. simpl length. lia.
Qed.

Lemma for_each_ext {A B} (f g : A → B → result A) xs acc :
  (∀ a x, x ∈ xs → f a x = g a x) → for_each f xs acc = for_each g xs acc.
Proof.
  revert acc. induction xs as [|x xs IH]; intros acc Hfg; simpl; [done|].
  rewrite Hfg by left. destruct (g acc x); simpl; [|done].
  apply IH. intros acc' y Hy. apply Hfg. by right.
Qed.

Lemma for_each_skip {A B} (body : A → B → result A) xs acc :
  (∀ a x, x ∈ xs → body a x = Ok a) → for_each body xs acc = Ok acc.
Proof.
  induction xs as [|x xs IH]; intros Hbody; simpl; [done|].
  rewrite Hbody by left. simpl. apply IH. intros acc' y Hy. apply Hbody. by right.
Qed.

Lemma split_map_spaces (f : N → N) x :
  (∀ c, is_space (f c) = is_space c) →
  (∀ c, is_space c = false → f c = c) →
  split (map f x) = split x.
Proof.
  intros Hsp Hid. induction x as [|c x IH]; [done|].
  cbn [map split]. rewrite Hsp, IH.
  destruct (is_space c) eqn:Hc; [done|]. rewrite (Hid c Hc).
  by destruct x as [|c' x]; simpl; rewrite ?Hsp.
Qed.

Lemma exceptions_member (tokens : list (list N)) (m0 : gmap (list N) (list Z)) key :
  is_Some (m0 !! key) ∨ (∃ ex, ex ∈ tokens ∧ exception_key ex = key) →
  is_Some (fold_left add_exception tokens m0 !! key).
Proof.
  revert m0. induction tokens as [|tok tokens IH]; intros m0; simpl.
  - intros [?|(ex & Hin & _)]; [done|]. by apply elem_of_nil in Hin.
  - intros Hkey. apply IH. unfold add_exception.
    destruct (decide (exception_key tok = key)) as [<-|Hne].
    + left. rewrite lookup_insert_eq. by eauto.
    + rewrite lookup_insert_ne by done.
      destruct Hkey as [?|(ex & [->|Hin]%elem_of_cons & Hk)];
        [by left | done | right; by exists ex].
Qed.

Lemma walk_no_child t rest i points :
  (∀ c, head rest = Some c → children t !! c = None) →
  walk t rest i points = Ok points.
Proof.
  destruct rest as [|c rest]; [done|]. intros Hc. simpl.
  by rewrite (Hc c eq_refl).
Qed.

Lemma scan_no_child tree work :
  (∀ c, c ∈ work → children tree !! c = None) →
  scan tree work = Ok (replicate (length work + 1) 0).
Proof.
  intros Hc. unfold scan. apply for_each_skip. intros pts i _.
  apply walk_no_child. intros c Hhead. apply Hc.
  rewrite head_lookup, lookup_drop, Nat.add_0_r in Hhead.
  by eapply list_elem_of_lookup_2.
Qed.

Section Words.

Variable lower : str → str.
Variable py_int : str → option Z.

(** The point list reaches over the whole word when the word is not an
    exception or the exceptions are spelt with a-z and hyphens. *)
Lemma word_points_cover patterns excs self word :
  lower_never_shortens lower →
  __init__ py_int patterns excs = Ok self →
  Forall plain_exception (split excs) ∨ exceptions self !! lower word = None →
  ∃ points, word_points lower self word = Ok points
            ∧ (length word + 2 ≤ length points)%nat.
Proof.
  intros Hlower Hinit Hexc. specialize (Hlower word).
  destruct (exceptions self !! lower word) as [pts|] eqn:Hex.
  - destruct Hexc as [Hplain|?]; [|done].
    exists pts. split; [unfold word_points; by rewrite Hex|].
    rewrite (word_points_plain lower py_int _ _ _ _ _ Hinit Hplain Hex). lia.
  - destruct (word_points_scan lower py_int _ _ _ word Hinit Hex)
      as (points & ? & Hl).
    exists points. split; [done | lia].
Qed.

(** X7: every piece but the last is non-empty; there is one piece more
    than there are odd weights on the slots paired with the characters of
    the word, so at most one more than the word has characters. *)
Theorem pieces_shape patterns excs self word :
  __init__ py_int patterns excs = Ok self →
  ∃ points pieces,
    word_points lower self word = Ok points
    ∧ hyphenate_word lower self word = Ok pieces
    ∧ Forall (λ piece, piece ≠ []) (removelast pieces)
    ∧ length pieces
      = S (length (odd_slots (take (length word) (drop 2 points))))
    ∧ (length pieces ≤ length word + 1)%nat.
Proof.
  intros Hinit.
  destruct (word_points_total lower py_int _ _ _ word Hinit) as (points & Hpts).
  destruct (pieces_loop_shape (zip word (drop 2 points)) [] [])
    as (done & cur & Hrun & Hne & Hlen).
  exists points, (done ++ [cur]). split; [done|].
  split; [by rewrite (hyphenate_word_unfold lower _ _ _ Hpts)|].
  rewrite removelast_last, length_app, Hlen, snd_zip_take. simpl.
  split; [by apply Hne|]. split; [lia|].
  pose proof (odd_slots_length (take (length word) (drop 2 points))) as Hodd.
  rewrite length_take in Hodd. lia.
Qed.

(** X8: the places of the breaks depend on the lower-cased word only: two
    words of the same length with the same lower-cased form are cut into
    pieces of the same lengths. *)
Theorem same_breaks patterns excs self word1 word2 :
  __init__ py_int patterns excs = Ok self →
  lower word1 = lower word2 →
  length word1 = length word2 →
  ∃ pieces1 pieces2,
    hyphenate_word lower self word1 = Ok pieces1
    ∧ hyphenate_word lower self word2 = Ok pieces2
    ∧ length <$> pieces1 = length <$> pieces2.
Proof.
  intros Hinit Hlow Hlen.
  destruct (word_points_total lower py_int _ _ _ word1 Hinit) as (points & Hpts).
  assert (word_points lower self word2 = Ok points) as Hpts2.
  { unfold word_points in *. by rewrite <- Hlow. }
  rewrite (hyphenate_word_unfold lower _ _ _ Hpts),
    (hyphenate_word_unfold lower _ _ _ Hpts2).
  apply (pieces_loop_lengths (zip word1 (drop 2 points))
           (zip word2 (drop 2 points)) [] [] [] []); [|done..].
  by rewrite !snd_zip_take, Hlen.
Qed.

(** X9: [hyphenate_word_as_string] only adds hyphens: for a word without
    a hyphen whose point list reaches over it, taking the hyphens out of
    the result gives the word back, and the result is longer than the word
    by one character per break. *)
Theorem as_string_strip patterns excs self word :
  lower_never_shortens lower →
  __init__ py_int patterns excs = Ok self →
  Forall plain_exception (split excs) ∨ exceptions self !! lower word = None →
  HYPHEN ∉ word →
  ∃ pieces out,
    hyphenate_word lower self word = Ok pieces
    ∧ hyphenate_word_as_string lower self word = Ok out
    ∧ remove_char HYPHEN out = word
    ∧ length out = (length word + (length pieces - 1))%nat.
Proof.
  intros Hlower Hinit Hexc Hno.
  destruct (word_points_cover _ _ _ word Hlower Hinit Hexc)
    as (points & Hpts & Hlen).
  destruct (build_pieces_whole word (drop 2 points)) as (pieces & Hps & Hcat).
  { rewrite length_drop. lia. }
  exists pieces, (join [HYPHEN] pieces).
  assert (hyphenate_word lower self word = Ok pieces) as Hw.
  { by rewrite (hyphenate_word_unfold lower _ _ _ Hpts). }
  split; [done|]. split; [unfold hyphenate_word_as_string; by rewrite Hw|].
  split.
  - rewrite remove_char_join, Hcat. by apply remove_char_absent.
  - rewrite join_length, Hcat. simpl. lia.
Qed.

(** X11: a key is in the exception table exactly when it is some token of
    the exceptions string without its hyphens, and what is stored under it
    is the point list of such a token: it starts with 0 and has at least
    two entries. *)
Theorem exception_table_keys patterns excs self key :
  __init__ py_int patterns excs = Ok self →
  (is_Some (exceptions self !! key)
   ↔ ∃ ex, ex ∈ split excs ∧ exception_key ex = key)
  ∧ (∀ points, exceptions self !! key = Some points →
       ∃ ex, ex ∈ split excs ∧ exception_key ex = key
             ∧ points = exception_points ex
             ∧ points !! 0%nat = Some 0 ∧ (2 ≤ length points)%nat).
Proof.
  intros [_ Hexc]%(init_inv py_int). rewrite Hexc.
  assert (∀ points,
            fold_left add_exception (split excs) ∅ !! key = Some points →
            ∃ ex, ex ∈ split excs ∧ exception_key ex = key
                  ∧ points = exception_points ex
                  ∧ points !! 0%nat = Some 0 ∧ (2 ≤ length points)%nat) as Hget.
  { intros points [Hemp|(ex & Hin & -> & ->)]%exceptions_origin; [done|].
    exists ex. split; [done|]. split; [done|]. split; [done|].
    split; [done|]. rewrite exception_points_length. lia. }
  split; [|done]. split.
  - intros [points (ex & ? & ? & _)%Hget]. by exists ex.
  - intros Hin. apply exceptions_member. by right.
Qed.

(** X12: a word that is not an exception and none of whose characters,
    lower-cased, nor the boundary dot, is the first letter of a pattern
    comes back whole, as the only piece. *)
Theorem unmatched_word_whole patterns excs self word :
  lower_never_shortens lower →
  __init__ py_int patterns excs = Ok self →
  exceptions self !! lower word = None →
  (∀ tok c, tok ∈ split patterns → c ∈ [DOT] ++ lower word ++ [DOT] →
            head (pattern_chars tok) ≠ Some c) →
  hyphenate_word lower self word = Ok [word].
Proof.
  intros Hlower Hinit Hex Hfirst. specialize (Hlower word).
  assert (word_points lower self word
          = Ok (replicate (length ([DOT] ++ lower word ++ [DOT]) + 1) 0)) as Hpts.
  { unfold word_points. rewrite Hex. apply scan_no_child. intros c Hc.
    destruct (children (tree self) !! c) as [t1|] eqn:Hchild; [|done].
    apply init_inv in Hinit as [Htree _].
    assert (is_Some (descend (tree self) [c])) as Hnode.
    { simpl. rewrite Hchild. by eauto. }
    apply (insert_patterns_nodes py_int _ _ _ _ Htree) in Hnode
      as [[? ?]|(tok & Hin & [k Hk])]; [done|].
    destruct (Hfirst tok c Hin Hc). by rewrite Hk. }
  rewrite (hyphenate_word_unfold lower _ _ _ Hpts).
  rewrite drop_replicate. apply build_pieces_single.
  - rewrite length_replicate. simpl. rewrite length_app. simpl. lia.
  - by apply Forall_take, Forall_replicate.
Qed.

(** X13: turning the new lines of the pattern file into blanks, as the
    command-line entry does before it builds the Hyphenator, changes
    neither the tokens nor the Hyphenator. *)
Theorem flatten_lines_tokens text excs :
  split (flatten_lines text) = split text
  ∧ __init__ py_int (flatten_lines text) excs = __init__ py_int text excs.
Proof.
  assert (split (flatten_lines text) = split text) as Hsplit.
  { apply split_map_spaces.
    - intros c. destruct (c =? NEWLINE)%N eqn:Hc; [|done].
      apply N.eqb_eq in Hc as ->. done.
    - intros c Hc. destruct (c =? NEWLINE)%N eqn:Hn; [|done].
      apply N.eqb_eq in Hn as ->. done. }
  split; [done|]. unfold __init__. by rewrite Hsplit.
Qed.

End Words.

(** * Tokens without letters, and spellings of exceptions *)

Lemma walk_children t1 t2 rest i points :
  children t1 = children t2 → walk t1 rest i points = walk t2 rest i points.
Proof. intros Hc. destruct rest as [|c rest]; [done|]. simpl. by rewrite Hc. Qed.

Lemma scan_children t1 t2 work :
  children t1 = children t2 → scan t1 work = scan t2 work.
Proof.
  intros Hc. unfold scan. apply for_each_ext. intros pts i _.
  by apply walk_children.
Qed.

Lemma insert_path_children chars points t1 t2 :
  children t1 = children t2 →
  children (insert_path chars points t1) = children (insert_path chars points t2).
Proof. intros Hc. destruct chars as [|c chars]; simpl; by rewrite ?Hc. Qed.

Lemma spelling_plain after_letter ex :
  hyphenated_spelling after_letter ex = true → plain_exception ex.
Proof.
  revert after_letter. induction ex as [|c ex IH]; intros b; simpl; [constructor|].
  destruct (is_az c) eqn:Haz.
  - intros Hex. constructor; [by rewrite Haz | by eapply IH].
  - intros [[Hc _]%andb_true_iff Hex]%andb_true_iff.
    constructor; [by rewrite Hc, orb_true_r | by eapply IH].
Qed.

Lemma spelling_gaps after_letter ex :
  hyphenated_spelling after_letter ex = true →
  ∃ gap0 gaps,
    re_split is_az ex = gap0 :: gaps
    ∧ (gap0 = [] ∨ (after_letter = true ∧ gap0 = [HYPHEN]))
    ∧ Forall (λ gap, gap = [] ∨ gap = [HYPHEN]) gaps.
Proof.
  revert after_letter. induction ex as [|c ex IH]; intros b; simpl.
  - intros _. exists [], []. by auto.
  - destruct (is_az c) eqn:Haz.
    + intros (g0 & gs & -> & Hg0 & Hgs)%IH. exists [], (g0 :: gs).
      split; [done|]. split; [by left|]. constructor; [|done].
      destruct Hg0 as [->|[_ ->]]; auto.
    + intros [[Hc Hb]%andb_true_iff (g0 & gs & -> & Hg0 & Hgs)%IH]%andb_true_iff.
      apply N.eqb_eq in Hc as ->. destruct Hg0 as [->|[? _]]; [|done].
      exists [HYPHEN], gs. split; [done|]. split; [by right | done].
Qed.

Lemma interleave_weave gap0 gaps letters :
  length gaps = length letters →
  interleave (gap0 :: gaps) letters = gap0 ++ weave letters gaps.
Proof.
  revert gap0 gaps. induction letters as [|c letters IH]; intros g0 [|g1 gs] Hlen;
    try done.
  - simpl. by rewrite app_nil_r.
  - change (interleave (g0 :: g1 :: gs) (c :: letters))
      with (g0 ++ c :: interleave (g1 :: gs) letters).
    rewrite IH by (simpl in Hlen; lia). done.
Qed.

(** The loop over an exception: [flag] is what line 33 stores for a gap. *)
Lemma pieces_weave (flag : list N → Z) letters gaps done cur :
  flag [] = 0 → flag [HYPHEN] = 1 →
  length gaps = length letters →
  Forall (λ gap, gap = [] ∨ gap = [HYPHEN]) gaps →
  ∃ pieces,
    for_each pieces_body (zip letters (map flag gaps)) (done ++ [cur]) = Ok pieces
    ∧ join [HYPHEN] pieces = join [HYPHEN] (done ++ [cur]) ++ weave letters gaps.
Proof.
  intros Hflag0 Hflag1.
  revert gaps done cur. induction letters as [|c letters IH];
    intros [|gap gaps] done cur Hlen Hgaps; simpl in Hlen; try lia.
  - exists (done ++ [cur]). split; [done|]. simpl. by rewrite app_nil_r.
  - apply Forall_cons in Hgaps as [Hgap Hgaps].
    cbn [map zip_with for_each].
    rewrite append_to_last_snoc. cbn [mbind result_bind].
    destruct Hgap as [->| ->].
    + rewrite Hflag0. change (truthy (0 mod 2)) with false.
      destruct (IH gaps done (cur ++ [c])) as (ps & Hps & Hjoin); [lia | done|].
      exists ps. split; [exact Hps|]. rewrite Hjoin, join_snoc_char.
      by rewrite <- app_assoc.
    + rewrite Hflag1. change (truthy (1 mod 2)) with true.
      destruct (IH gaps (done ++ [cur ++ [c]]) []) as (ps & Hps & Hjoin);
        [lia | done|].
      exists ps. split; [exact Hps|]. rewrite Hjoin.
      rewrite join_snoc_piece, join_snoc_char.
      cbn [weave]. by rewrite <- !app_assoc.
Qed.

Section Tokens.

Variable lower : str → str.
Variable py_int : str → option Z.

Lemma insert_patterns_children tokens t1 t2 t1' t2' :
  children t1 = children t2 →
  for_each (_insert_pattern py_int) tokens t1 = Ok t1' →
  for_each (_insert_pattern py_int)
           (filter (λ tok, pattern_chars tok ≠ []) tokens) t2 = Ok t2' →
  children t1' = children t2'.
Proof.
  revert t1 t2. induction tokens as [|tok tokens IH]; intros t1 t2 Hc.
  - simpl. by intros [= <-] [= <-].
  - cbn [for_each]. rewrite insert_pattern_unfold.
    destruct (pattern_points py_int tok) as [pts|] eqn:Hp; simpl; [|done].
    intros H1. destruct (decide (pattern_chars tok ≠ [])) as [Hne|Heq].
    + rewrite filter_cons_True by done. cbn [for_each].
      rewrite insert_pattern_unfold, Hp. simpl. intros H2.
      eapply IH; [|exact H1|exact H2]. by apply insert_path_children.
    + rewrite filter_cons_False by done. intros H2.
      eapply IH; [|exact H1|exact H2].
      apply dec_stable in Heq. by rewrite Heq.
Qed.

(** X6: a pattern token made of digits only has no effect: two
    Hyphenators whose pattern tokens differ only by such tokens hyphenate
    every word in the same way. *)
Theorem digit_only_tokens_ignored patterns1 patterns2 excs self1 self2 word :
  __init__ py_int patterns1 excs = Ok self1 →
  __init__ py_int patterns2 excs = Ok self2 →
  split patterns2 = filter (λ tok, pattern_chars tok ≠ []) (split patterns1) →
  hyphenate_word lower self1 word = hyphenate_word lower self2 word.
Proof.
  intros [Ht1 He1]%(init_inv py_int) [Ht2 He2]%(init_inv py_int) Hsplit.
  rewrite Hsplit in Ht2.
  pose proof (insert_patterns_children _ _ _ _ _ eq_refl Ht1 Ht2) as Hc.
  unfold hyphenate_word, word_points. rewrite He1, He2.
  by rewrite (scan_children _ _ _ Hc).
Qed.

(** X10: an exception spelt with letters a-z and hyphens that each follow
    a letter comes back as it was written: when it is the last token with
    its key and [str.lower] leaves the key as it is,
    [hyphenate_word_as_string] of the key is the token. *)
Theorem exception_roundtrip patterns excs self (before after : list (list N)) ex :
  __init__ py_int patterns excs = Ok self →
  split excs = before ++ ex :: after →
  Forall (λ ex', exception_key ex' ≠ exception_key ex) after →
  hyphenated_spelling false ex = true →
  lower (exception_key ex) = exception_key ex →
  hyphenate_word_as_string lower self (exception_key ex) = Ok ex.
Proof.
  intros [_ Hexc]%(init_inv py_int) Hsplit Hafter Hspelt Hlow.
  assert (word_points lower self (exception_key ex) = Ok (exception_points ex))
    as Hpts.
  { unfold word_points. rewrite Hlow, Hexc, Hsplit.
    by rewrite exceptions_last. }
  unfold hyphenate_word_as_string.
  rewrite (hyphenate_word_unfold lower _ _ _ Hpts).
  destruct (spelling_gaps _ _ Hspelt) as (g0 & gs & Hre & [->|[? _]] & Hgs);
    [|done].
  pose proof (re_split_length is_az ex) as Hlen.
  pose proof (re_split_interleave is_az ex) as Hex.
  rewrite Hre in Hlen, Hex. simpl in Hlen. injection Hlen as Hlen.
  rewrite interleave_weave in Hex by done. simpl in Hex.
  rewrite (plain_exception_key ex) by (by eapply spelling_plain).
  unfold exception_points. rewrite Hre. cbn [map drop].
  match goal with
  | |- context [map ?flag gs] =>
      destruct (pieces_weave flag (List.filter is_az ex) gs [] [] eq_refl eq_refl
                  Hlen Hgs) as (ps & Hps & Hjoin)
  end.
  unfold build_pieces. simpl in Hps. rewrite drop_0, Hps. simpl.
  rewrite Hjoin. simpl. by rewrite Hex.
Qed.

End Tokens.

(** * Adding a pattern *)

Lemma max0_elem_or_0 ws : max0 ws = 0 ∨ max0 ws ∈ ws.
Proof.
  induction ws as [|w ws IH]; [by left|]. simpl.
  destruct (Z.max_spec w (max0 ws)) as [[_ ->]|[_ ->]].
  - destruct IH as [->|?]; [by left | right; by right].
  - right. left.
Qed.

Lemma max0_mono ws1 ws2 : ws1 ⊆ ws2 → max0 ws1 ≤ max0 ws2.
Proof.
  intros Hsub. destruct (max0_elem_or_0 ws1) as [->|Hin].
  - apply max0_nonneg.
  - pose proof (max0_upper ws2) as Hup. rewrite Forall_forall in Hup.
    apply Hup, Hsub, Hin.
Qed.

Lemma slot_weights_mono t1 t2 work k :
  (∀ path p, payload_at t1 path = Some p → payload_at t2 path = Some p) →
  slot_weights (matches t1 work) k ⊆ slot_weights (matches t2 work) k.
Proof.
  intros Hsub w. unfold slot_weights, matches.
  intros ([i p] & Hm & Hw)%list_elem_of_omap.
  apply list_elem_of_omap. exists (i, p). split; [|done].
  apply list_elem_of_bind in Hm as (i' & Hm & Hi).
  apply list_elem_of_fmap in Hm as (p' & [= <- <-] & Hv).
  apply list_elem_of_bind. exists i. split; [|done].
  apply list_elem_of_fmap. exists p. split; [done|].
  unfold visited in *. apply list_elem_of_omap in Hv as (n & Hn & Hp).
  apply list_elem_of_omap. exists n. split; [done|]. by apply Hsub.
Qed.

Section Adding.

Variable lower : str → str.
Variable py_int : str → option Z.

(** X14: a further pattern, with letters that no earlier token has, never
    lowers a weight: on every padded word each slot of the scan is at
    least what it was without the pattern. *)
Theorem new_pattern_raises_weights patterns1 patterns2 excs self1 self2 tok work :
  __init__ py_int patterns1 excs = Ok self1 →
  __init__ py_int patterns2 excs = Ok self2 →
  split patterns2 = split patterns1 ++ [tok] →
  Forall (λ tok', pattern_chars tok' ≠ pattern_chars tok) (split patterns1) →
  ∃ points1 points2,
    scan (tree self1) work = Ok points1
    ∧ scan (tree self2) work = Ok points2
    ∧ Forall2 Z.le points1 points2.
Proof.
  intros Hinit1 Hinit2 Hsplit Hnew.
  destruct (scan_spec (tree self1) work) as (pts1 & Hs1 & Hl1 & Hk1);
    [by eapply init_bounded|].
  destruct (scan_spec (tree self2) work) as (pts2 & Hs2 & Hl2 & Hk2);
    [by eapply init_bounded|].
  exists pts1, pts2. split; [done|]. split; [done|].
  apply init_inv in Hinit1 as [Ht1 _]. apply init_inv in Hinit2 as [Ht2 _].
  rewrite Hsplit, for_each_app, Ht1 in Ht2. simpl in Ht2.
  rewrite insert_pattern_unfold in Ht2.
  destruct (pattern_points py_int tok) as [pts|]; simpl in Ht2; [|done].
  injection Ht2 as Ht2.
  assert (∀ path p, payload_at (tree self1) path = Some p →
                    payload_at (tree self2) path = Some p) as Hsub.
  { intros path p Hp. rewrite <- Ht2, payload_at_insert.
    rewrite decide_False; [done|]. intros ->.
    rewrite (insert_patterns_miss py_int _ _ _ _ Ht1 Hnew) in Hp.
    by rewrite payload_at_empty in Hp. }
  apply Forall2_same_length_lookup_2; [congruence|].
  intros k z1 z2 Hz1 Hz2.
  rewrite Hk1 in Hz1 by (by eapply lookup_lt_Some).
  rewrite Hk2 in Hz2 by (by eapply lookup_lt_Some).
  injection Hz1 as <-. injection Hz2 as <-.
  by apply max0_mono, slot_weights_mono.
Qed.

End Adding.

(** * The further properties at concrete inputs *)

Lemma insert_pattern_lookup_witness :
  _insert_pattern int_ascii (tree demo) (s "po2w")
  = Ok (insert_path (s "pow") [0; 0; 2; 0] (tree demo))
  ∧ ∃ points,
      pattern_points int_ascii (s "po2w") = Ok points
      ∧ payload_at (insert_path (s "pow") [0; 0; 2; 0] (tree demo)) (s "pow")
        = Some points
      ∧ (∀ path, path ≠ s "pow" →
           payload_at (insert_path (s "pow") [0; 0; 2; 0] (tree demo)) path
           = payload_at (tree demo) path)
      ∧ (∀ path, is_Some (descend (tree demo) path) →
           is_Some (descend (insert_path (s "pow") [0; 0; 2; 0] (tree demo)) path)).
Proof.
  split; [by vm_compute|].
  apply (insert_pattern_lookup int_ascii (tree demo) (s "po2w")). by vm_compute.
Defined.

Lemma init_lookup_witness :
  __init__ int_ascii (s "a1b a2b") [] = Ok (built (s "a1b a2b") [])
  ∧ split (s "a1b a2b") = [s "a1b"] ++ s "a2b" :: []
  ∧ payload_at (tree (built (s "a1b a2b") [])) (s "ab") = Some [0; 2; 0]
  ∧ payload_at (tree (built (s "a1b a2b") [])) (s "a") = None.
Proof.
  split; [by vm_compute|]. split; [by vm_compute|].
  destruct (init_lookup int_ascii (s "a1b a2b") [] (built (s "a1b a2b") [])
              [s "a1b"] [] (s "a2b") (s "a")) as [Hhit Hmiss]; [by vm_compute|].
  split.
  - destruct Hhit as (points & Hp & Hget); [by vm_compute | constructor|].
    vm_compute in Hp. injection Hp as <-. exact Hget.
  - apply Hmiss. apply (bool_decide_unpack _). by vm_compute.
Defined.

Lemma init_nodes_witness :
  __init__ int_ascii demo_patterns demo_exceptions = Ok demo
  ∧ is_Some (descend (tree demo) (s "hen"))
  ∧ ¬ is_Some (descend (tree demo) (s "hex")).
Proof.
  split; [by vm_compute|].
  split.
  - apply (init_nodes int_ascii demo_patterns demo_exceptions demo (s "hen"));
      [by vm_compute|].
    right. exists (s "hena4"). split.
    + apply (bool_decide_unpack _). by vm_compute.
    + by exists (s "a").
  - intros Hnode.
    apply (init_nodes int_ascii demo_patterns demo_exceptions demo (s "hex"))
      in Hnode; [|by vm_compute].
    destruct Hnode as [?|(tok & Hin & Hp)]; [done|].
    assert (Forall (λ tok, ¬ s "hex" `prefix_of` pattern_chars tok)
                   (split demo_patterns)) as Hall.
    { apply (bool_decide_unpack _). by vm_compute. }
    rewrite Forall_forall in Hall. by apply (Hall tok Hin).
Defined.

Lemma init_points_length_witness :
  __init__ int_ascii (s "hy3ph a+1b") [] = Ok (built (s "hy3ph a+1b") [])
  ∧ payload_at (tree (built (s "hy3ph a+1b") [])) (s "a+b") = Some [0; 1; 0]
  ∧ (1 ≤ length ([0; 1; 0]%Z : list Z) ≤ length (s "a+b") + 1)%nat.
Proof.
  split; [by vm_compute|]. split; [by vm_compute|].
  apply (init_points_length int_ascii (s "hy3ph a+1b") []
           (built (s "hy3ph a+1b") [])); by vm_compute.
Defined.

Lemma digit_only_tokens_ignored_witness :
  __init__ int_ascii (s "1 a1b 22") [] = Ok (built (s "1 a1b 22") [])
  ∧ __init__ int_ascii (s "a1b") [] = Ok (built (s "a1b") [])
  ∧ split (s "a1b") = filter (λ tok, pattern_chars tok ≠ []) (split (s "1 a1b 22"))
  ∧ tree (built (s "1 a1b 22") []) ≠ tree (built (s "a1b") [])
  ∧ hyphenate_word lower_latin1 (built (s "1 a1b 22") []) (s "cab")
    = hyphenate_word lower_latin1 (built (s "a1b") []) (s "cab").
Proof.
  split; [by vm_compute|]. split; [by vm_compute|]. split; [by vm_compute|].
  split; [by vm_compute|].
  apply (digit_only_tokens_ignored lower_latin1 int_ascii
           (s "1 a1b 22") (s "a1b") []); by vm_compute.
Defined.

Lemma pieces_shape_witness :
  __init__ int_ascii demo_patterns demo_exceptions = Ok demo
  ∧ ∃ points pieces,
      word_points lower_latin1 demo (s "Hyphenation") = Ok points
      ∧ hyphenate_word lower_latin1 demo (s "Hyphenation") = Ok pieces
      ∧ Forall (λ piece, piece ≠ []) (removelast pieces)
      ∧ length pieces
        = S (length (odd_slots (take (length (s "Hyphenation")) (drop 2 points))))
      ∧ (length pieces ≤ length (s "Hyphenation") + 1)%nat.
Proof.
  split; [by vm_compute|].
  apply (pieces_shape lower_latin1 int_ascii demo_patterns demo_exceptions).
  by vm_compute.
Defined.

Lemma same_breaks_witness :
  __init__ int_ascii demo_patterns demo_exceptions = Ok demo
  ∧ lower_latin1 (s "Hyphenation") = lower_latin1 (s "HYPHENATION")
  ∧ ∃ pieces1 pieces2,
      hyphenate_word lower_latin1 demo (s "Hyphenation") = Ok pieces1
      ∧ hyphenate_word lower_latin1 demo (s "HYPHENATION") = Ok pieces2
      ∧ length <$> pieces1 = length <$> pieces2.
Proof.
  split; [by vm_compute|]. split; [by vm_compute|].
  apply (same_breaks lower_latin1 int_ascii demo_patterns demo_exceptions);
    by vm_compute.
Defined.

Lemma as_string_strip_witness :
  lower_never_shortens lower_latin1
  ∧ __init__ int_ascii demo_patterns demo_exceptions = Ok demo
  ∧ (HYPHEN ∉ s "Hyphenation")
  ∧ ∃ pieces out,
      hyphenate_word lower_latin1 demo (s "Hyphenation") = Ok pieces
      ∧ hyphenate_word_as_string lower_latin1 demo (s "Hyphenation") = Ok out
      ∧ remove_char HYPHEN out = s "Hyphenation"
      ∧ length out = (length (s "Hyphenation") + (length pieces - 1))%nat.
Proof.
  assert (HYPHEN ∉ s "Hyphenation") as Hno.
  { apply (bool_decide_unpack _). by vm_compute. }
  split; [apply lower_latin1_length|]. split; [by vm_compute|]. split; [done|].
  apply (as_string_strip lower_latin1 int_ascii demo_patterns demo_exceptions).
  - apply lower_latin1_length.
  - by vm_compute.
  - left. apply plain_exceptions_check. by vm_compute.
  - done.
Defined.

Lemma exception_roundtrip_witness :
  __init__ int_ascii demo_patterns (s "x-y as-so-ciate")
  = Ok (built demo_patterns (s "x-y as-so-ciate"))
  ∧ split (s "x-y as-so-ciate") = [s "x-y"] ++ s "as-so-ciate" :: []
  ∧ hyphenated_spelling false (s "as-so-ciate") = true
  ∧ lower_latin1 (exception_key (s "as-so-ciate")) = exception_key (s "as-so-ciate")
  ∧ hyphenate_word_as_string lower_latin1
      (built demo_patterns (s "x-y as-so-ciate")) (exception_key (s "as-so-ciate"))
    = Ok (s "as-so-ciate").
Proof.
  split; [by vm_compute|]. split; [by vm_compute|]. split; [by vm_compute|].
  split; [by vm_compute|].
  apply (exception_roundtrip lower_latin1 int_ascii demo_patterns
           (s "x-y as-so-ciate") _ [s "x-y"] []);
    [by vm_compute | by vm_compute | constructor | by vm_compute | by vm_compute].
Defined.

Lemma exception_table_keys_witness :
  __init__ int_ascii demo_patterns demo_exceptions = Ok demo
  ∧ is_Some (exceptions demo !! s "associate")
  ∧ ¬ is_Some (exceptions demo !! s "as-so-ciate").
Proof.
  split; [by vm_compute|].
  destruct (exception_table_keys int_ascii demo_patterns demo_exceptions demo
              (s "associate")) as [Hkey _]; [by vm_compute|].
  destruct (exception_table_keys int_ascii demo_patterns demo_exceptions demo
              (s "as-so-ciate")) as [Hkey' _]; [by vm_compute|].
  split.
  - apply Hkey. exists (s "as-so-ciate"). split; [|by vm_compute].
    apply (bool_decide_unpack _). by vm_compute.
  - intros (ex & Hin & Hk)%Hkey'. vm_compute in Hin.
    apply list_elem_of_singleton in Hin as ->. by vm_compute in Hk.
Defined.

Lemma unmatched_word_whole_witness :
  lower_never_shortens lower_latin1
  ∧ __init__ int_ascii demo_patterns demo_exceptions = Ok demo
  ∧ exceptions demo !! lower_latin1 (s "Q-5") = None
  ∧ hyphenate_word lower_latin1 demo (s "Q-5") = Ok [s "Q-5"].
Proof.
  split; [apply lower_latin1_length|]. split; [by vm_compute|].
  split; [by vm_compute|].
  apply (unmatched_word_whole lower_latin1 int_ascii demo_patterns demo_exceptions).
  - apply lower_latin1_length.
  - by vm_compute.
  - by vm_compute.
  - assert (Forall (λ tok, Forall (λ c, head (pattern_chars tok) ≠ Some c)
                                  ([DOT] ++ lower_latin1 (s "Q-5") ++ [DOT]))
                   (split demo_patterns)) as Hall.
    { apply (bool_decide_unpack _). by vm_compute. }
    intros tok c Htok Hc. rewrite Forall_forall in Hall.
    specialize (Hall tok Htok). rewrite Forall_forall in Hall. by apply Hall.
Defined.

Lemma new_pattern_raises_weights_witness :
  __init__ int_ascii (s "a1b") [] = Ok (built (s "a1b") [])
  ∧ __init__ int_ascii (s "a1b 2bc") [] = Ok (built (s "a1b 2bc") [])
  ∧ split (s "a1b 2bc") = split (s "a1b") ++ [s "2bc"]
  ∧ scan (tree (built (s "a1b") [])) (s ".abc.") = Ok [0; 0; 1; 0; 0; 0]
  ∧ scan (tree (built (s "a1b 2bc") [])) (s ".abc.") = Ok [0; 0; 2; 0; 0; 0]
  ∧ ∃ points1 points2,
      scan (tree (built (s "a1b") [])) (s ".abc.") = Ok points1
      ∧ scan (tree (built (s "a1b 2bc") [])) (s ".abc.") = Ok points2
      ∧ Forall2 Z.le points1 points2.
Proof.
  split; [by vm_compute|]. split; [by vm_compute|]. split; [by vm_compute|].
  split; [by vm_compute|]. split; [by vm_compute|].
  apply (new_pattern_raises_weights int_ascii (s "a1b") (s "a1b 2bc") []
           (built (s "a1b") []) (built (s "a1b 2bc") []) (s "2bc"));
    [by vm_compute | by vm_compute | by vm_compute |].
  apply (bool_decide_unpack _). by vm_compute.
Defined.
